(** * leapfrogg-mvp: the data layer of [flask_server/models.py]

    A shallow embedding of the [User] / [Post] models, the [followers]
    association table, the query methods attached to [User] and the
    settings of [config.py], followed by the properties of the follow
    graph, the feed query, the credential helpers, the avatar URL, the
    session loader and the configuration.

    Conventions.
    - A Python [str] is a [string] whose characters are the code points
      below 256 (one [ascii] per code point); text beyond Latin-1 is outside
      the model.
    - A nullable column that a modelled method reads is an [option].
    - A call that may raise returns a [Result]. *)

From Stdlib Require Import ZArith List String Ascii Bool Arith Lia.
From Stdlib Require Import Sorting.Sorted Permutation DecimalString DecimalPos.
From Stdlib Require Import Init.Byte.
Import ListNotations.

Local Open Scope string_scope.
Local Open Scope Z_scope.

(* ------------------------------------------------------------------ *)
(** ** Exceptions and results *)

Inductive PyException : Type :=
| ValueError
| AttributeError.

Inductive Result (A : Type) : Type :=
| Return (a : A)
| Raise (e : PyException).

Arguments Return {A} a.
Arguments Raise {A} e.

Definition bind {A B : Type} (c : Result A) (k : A -> Result B) : Result B :=
  match c with
  | Return a => k a
  | Raise e => Raise e
  end.

Notation "x <- c ;; k" := (bind c (fun x => k))
  (at level 61, c at next level, right associativity).

(* ------------------------------------------------------------------ *)
(** ** Python built-ins used by the models *)

Definition code (c : ascii) : nat := nat_of_ascii c.

(** The white space [int] skips around a number, among the code points
    below 256: TAB..CR, SPACE, NEL and NBSP. *)
Definition int_space (c : ascii) : bool :=
  let n := code c in
  (((9 <=? n) && (n <=? 13)) || (n =? 32) || (n =? 133) || (n =? 160))%nat.

(** Value of a decimal digit, [None] for any other code point. *)
Definition digit_value (c : ascii) : option Z :=
  let n := code c in
  if ((48 <=? n) && (n <=? 57))%nat then Some (Z.of_nat (n - 48)) else None.

Fixpoint lstrip (s : list ascii) : list ascii :=
  match s with
  | [] => []
  | c :: r => if int_space c then lstrip r else s
  end.

Definition strip (s : list ascii) : list ascii :=
  rev (lstrip (rev (lstrip s))).

(** The digit loop of [int(text, 10)]: digits, with single underscores
    allowed between two digits. [prev_us] records that the previous
    character was an underscore. *)
Fixpoint parse_digits (acc : Z) (prev_us : bool) (s : list ascii) : option Z :=
  match s with
  | [] => if prev_us then None else Some acc
  | c :: r =>
      if Ascii.eqb c "_"
      then (if prev_us then None else parse_digits acc true r)
      else match digit_value c with
           | Some d => parse_digits (10 * acc + d) false r
           | None => None
           end
  end.

Definition parse_magnitude (s : list ascii) : option Z :=
  match s with
  | [] => None
  | c :: _ => if Ascii.eqb c "_" then None else parse_digits 0 false s
  end.

(** [int(s)] for a [str] argument: surrounding white space is skipped, one
    optional sign, then the digits; anything else raises [ValueError]. The
    cap that recent interpreters put on the number of digits is left out:
    the definition stands for [int] on texts of at most 4300 characters,
    and a text it rejects is rejected by every interpreter. *)
Definition py_int (s : string) : Result Z :=
  let t := strip (list_ascii_of_string s) in
  let signed :=
    match t with
    | c :: r =>
        if Ascii.eqb c "-" then option_map Z.opp (parse_magnitude r)
        else if Ascii.eqb c "+" then parse_magnitude r
        else parse_magnitude t
    | [] => None
    end in
  match signed with
  | Some n => Return n
  | None => Raise ValueError
  end.

(** [str(n)] for an [int]. *)
Definition py_str (n : Z) : string := NilZero.string_of_int (Z.to_int n).

(** [str.lower] on one code point below 256: the ASCII capitals and the
    Latin-1 capitals (U+00C0..U+00DE without the multiplication sign) move
    up by 32. *)
Definition is_upper (c : ascii) : bool :=
  let n := code c in
  (((65 <=? n) && (n <=? 90))
   || ((192 <=? n) && (n <=? 222) && negb (n =? 215)))%nat.

Definition lower_char (c : ascii) : ascii :=
  if is_upper c then ascii_of_nat (code c + 32) else c.

Fixpoint py_lower (s : string) : string :=
  match s with
  | EmptyString => EmptyString
  | String c r => String (lower_char c) (py_lower r)
  end.

(** [str.encode("utf-8")]: one byte below U+0080, two bytes up to U+00FF. *)
Definition utf8_char (c : ascii) : list byte :=
  let n := code c in
  if (n <? 128)%nat then [byte_of_ascii c]
  else [byte_of_ascii (ascii_of_nat (192 + n / 64));
        byte_of_ascii (ascii_of_nat (128 + n mod 64))].

Fixpoint encode_utf8 (s : string) : list byte :=
  match s with
  | EmptyString => []
  | String c r => utf8_char c ++ encode_utf8 r
  end.

(** [s.count(c)] for a one-character needle. *)
Fixpoint str_count (c : ascii) (s : string) : nat :=
  match s with
  | EmptyString => O
  | String d r => (if Ascii.eqb d c then 1 else 0) + str_count c r
  end.

(** Cut at the first occurrence of [sep], when there is one. *)
Fixpoint str_cut (sep : ascii) (s : string) : option (string * string) :=
  match s with
  | EmptyString => None
  | String d r =>
      if Ascii.eqb d sep then Some (EmptyString, r)
      else match str_cut sep r with
           | Some (a, b) => Some (String d a, b)
           | None => None
           end
  end.

(** [s.split(sep, maxsplit)]. *)
Fixpoint str_split (sep : ascii) (maxsplit : nat) (s : string) : list string :=
  match maxsplit with
  | O => [s]
  | S m =>
      match str_cut sep s with
      | Some (a, r) => a :: str_split sep m r
      | None => [s]
      end
  end.

(* ------------------------------------------------------------------ *)
(** ** The imported library primitives

    [hashlib.md5(..).hexdigest()] and the digest routine behind
    [werkzeug.security] are kept abstract: the models only format, store
    and compare what these return. *)

Class Crypto : Type := {
  (** [md5(data).hexdigest()] *)
  md5_hexdigest : list byte -> string;
  (** [_hash_internal(method, salt, password)]: the digest in hexadecimal
      and the method name recorded next to it *)
  hash_internal : string -> string -> string -> Result (string * string);
  (** the [method] default of [generate_password_hash] *)
  default_method : string
}.

Section Werkzeug.
Context `{Crypto}.

(** [generate_password_hash(password)], with the salt drawn by [gen_salt]
    passed in: the stored text is [method$salt$digest]. *)
Definition generate_password_hash (salt password : string) : Result string :=
  r <- hash_internal default_method salt password ;;
  Return (snd r ++ "$" ++ salt ++ "$" ++ fst r).

(** [check_password_hash(pwhash, password)]. [pwhash] is whatever
    the column holds: [None] has no [count] attribute. *)
Definition check_password_hash (pwhash : option string) (password : string)
  : Result bool :=
  match pwhash with
  | None => Raise AttributeError
  | Some h =>
      if (str_count "$" h <? 2)%nat then Return false
      else match str_split "$" 2 h with
           | [method; salt; hashval] =>
               r <- hash_internal method salt password ;;
               Return (String.eqb (fst r) hashval)
           | _ => Raise ValueError
           end
  end.
End Werkzeug.

(* ------------------------------------------------------------------ *)
(** ** The schema *)

Module User.
Record t : Type := mk {
  id : Z;
  username : option string;
  email : option string;
  about_me : option string;
  last_seen : option Z;
  password_hash : option string;
  poster : bool
}.
End User.

Module Post.
Record t : Type := mk {
  id : Z;
  url : option string;
  body : option string;
  timestamp : Z;
  user_id : option Z
}.
End Post.

(** The three tables. [followers] rows are [(follower_id, followed_id)];
    the table has no key, so the same row may be stored more than once. *)
Record DB : Type := mkDB {
  users : list User.t;
  posts : list Post.t;
  followers : list (Z * Z)
}.

Definition user_eq_dec (u v : User.t) : {u = v} + {u <> v}.
Proof.
  repeat decide equality; try apply Z.eq_dec; try apply string_dec.
Defined.

Definition post_eq_dec (p q : Post.t) : {p = q} + {p <> q}.
Proof.
  repeat decide equality; try apply Z.eq_dec; try apply string_dec.
Defined.

Definition opt_user_eq_dec (u v : option User.t) : {u = v} + {u <> v}.
Proof.
  decide equality; apply user_eq_dec.
Defined.

(** [column == value] on a nullable integer column. *)
Definition col_eqb (c : option Z) (v : Z) : bool :=
  match c with
  | Some x => x =? v
  | None => false
  end.

(* ------------------------------------------------------------------ *)
(** ** Credentials and avatar *)

Section Credentials.
Context `{Crypto}.

(** [set_password] returns the updated record; [salt] is the salt that the
    library draws. *)
Definition set_password (self : User.t) (salt password : string)
  : Result User.t :=
  h <- generate_password_hash salt password ;;
  Return (User.mk (User.id self) (User.username self) (User.email self)
            (User.about_me self) (User.last_seen self) (Some h)
            (User.poster self)).

Definition check_password (self : User.t) (password : string) : Result bool :=
  check_password_hash (User.password_hash self) password.

Definition avatar (self : User.t) (size : Z) : Result string :=
  match User.email self with
  | None => Raise AttributeError
  | Some e =>
      let digest := md5_hexdigest (encode_utf8 (py_lower e)) in
      Return ("https://www.gravatar.com/avatar/" ++ digest
              ++ "?d=identicon&s=" ++ py_str size)
  end.
End Credentials.

(* ------------------------------------------------------------------ *)
(** ** Addresses beyond Latin-1

    The same [lower], [encode] and [avatar] on a text given as the list of
    its code points. The tables cover the code points below 256 and the
    Greek letters U+0391..U+03C9; other code points are outside the
    model. *)

Definition between (lo hi n : N) : bool := ((lo <=? n) && (n <=? hi))%N.

(** The code points that the final-sigma rule skips. *)
Definition case_ignorable (n : N) : bool :=
  ((n =? 0x27) || (n =? 0x2e) || (n =? 0x3a) || (n =? 0x5e) || (n =? 0x60)
   || (n =? 0xa8) || (n =? 0xad) || (n =? 0xaf) || (n =? 0xb4)
   || between 0xb7 0xb8 n)%N.

(** The cased code points, among those that are not skipped. *)
Definition cased (n : N) : bool :=
  (between 0x41 0x5a n || between 0x61 0x7a n
   || (n =? 0xaa) || (n =? 0xb5) || (n =? 0xba)
   || between 0xc0 0xd6 n || between 0xd8 0xf6 n || between 0xf8 0xff n
   || between 0x391 0x3a1 n || between 0x3a3 0x3a9 n
   || between 0x3b1 0x3c9 n)%N.

(** The capitals: each has its small letter 32 places up. *)
Definition is_capital (n : N) : bool :=
  between 0x41 0x5a n || between 0xc0 0xd6 n || between 0xd8 0xde n
  || between 0x391 0x3a1 n || between 0x3a3 0x3a9 n.

Definition lower_code (n : N) : N := if is_capital n then (n + 32)%N else n.

Fixpoint skip_ignorable (l : list N) : list N :=
  match l with
  | [] => []
  | c :: r => if case_ignorable c then skip_ignorable r else l
  end.

(** A capital sigma is final when a cased code point stands before it and
    none stands after it, skipped code points aside. [before] lists what
    precedes the sigma, nearest first. *)
Definition final_sigma (before after : list N) : bool :=
  match skip_ignorable before with
  | [] => false
  | c :: _ =>
      cased c
      && match skip_ignorable after with
         | [] => true
         | d :: _ => negb (cased d)
         end
  end.

Fixpoint lower_from (before : list N) (t : list N) : list N :=
  match t with
  | [] => []
  | c :: r =>
      (if (c =? 0x3a3)%N
       then (if final_sigma before r then 0x3c2%N else 0x3c3%N)
       else lower_code c)
      :: lower_from (c :: before) r
  end.

(** [str.lower] *)
Definition lower_wide (t : list N) : list N := lower_from [] t.

Definition byte_of_N (n : N) : byte := byte_of_ascii (ascii_of_N n).

(** [str.encode("utf-8")] of one code point; surrogates, which have no
    encoding, are outside the model. *)
Definition utf8_code (n : N) : list byte :=
  if (n <? 0x80)%N then [byte_of_N n]
  else if (n <? 0x800)%N then
    [byte_of_N (0xc0 + n / 64); byte_of_N (0x80 + n mod 64)]
  else if (n <? 0x10000)%N then
    [byte_of_N (0xe0 + n / 4096); byte_of_N (0x80 + (n / 64) mod 64);
     byte_of_N (0x80 + n mod 64)]
  else
    [byte_of_N (0xf0 + n / 262144); byte_of_N (0x80 + (n / 4096) mod 64);
     byte_of_N (0x80 + (n / 64) mod 64); byte_of_N (0x80 + n mod 64)].

Definition encode_utf8_wide (t : list N) : list byte := flat_map utf8_code t.

(** [avatar] for a user whose [email] column holds the given text. *)
Definition avatar_wide `{Crypto} (email : option (list N)) (size : Z)
  : Result string :=
  match email with
  | None => Raise AttributeError
  | Some e =>
      let digest := md5_hexdigest (encode_utf8_wide (lower_wide e)) in
      Return ("https://www.gravatar.com/avatar/" ++ digest
              ++ "?d=identicon&s=" ++ py_str size)
  end.

(** The code points of a text of the narrow model. *)
Definition code_points (t : string) : list N :=
  map N_of_ascii (list_ascii_of_string t).

(* ------------------------------------------------------------------ *)
(** ** The follow graph *)

(** The [followed] relationship of [self] as a query: the rows of
    [user] x [followers] with [follower_id = self.id] and
    [followed_id = user.id]. *)
Definition followed (db : DB) (self : User.t) : list (User.t * (Z * Z)) :=
  flat_map
    (fun u =>
       map (pair u)
         (filter (fun e => (fst e =? User.id self) && (snd e =? User.id u))
            (followers db)))
    (users db).

Definition is_following (db : DB) (self user : User.t) : bool :=
  Nat.eqb
    (List.length
       (filter (fun r => snd (snd r) =? User.id user) (followed db self)))
    1.

(** [self.followed.append(user)]: one more row in [followers]. The session
    writes pending changes before the next query, so the effect of a call
    is taken on the spot. *)
Definition followed_append (db : DB) (self user : User.t) : DB :=
  mkDB (users db) (posts db) (followers db ++ [(User.id self, User.id user)]).

(** [self.followed.remove(user)]: the rows of the pair are deleted. *)
Definition followed_remove (db : DB) (self user : User.t) : DB :=
  mkDB (users db) (posts db)
    (filter (fun e => negb ((fst e =? User.id self) && (snd e =? User.id user)))
       (followers db)).

Definition follow (db : DB) (self user : User.t) : DB :=
  if negb (is_following db self user) then followed_append db self user else db.

Definition unfollow (db : DB) (self user : User.t) : DB :=
  if is_following db self user then followed_remove db self user else db.

(** [Post.query.join(followers, followers.c.followed_id == Post.user_id)
     .filter(followers.c.follower_id == self.id)]: one [Post] per matching
    pair of a post and an edge. *)
Definition posts_join_followed (db : DB) (self : User.t) : list Post.t :=
  flat_map
    (fun p =>
       flat_map
         (fun e =>
            if col_eqb (Post.user_id p) (snd e) && (fst e =? User.id self)
            then [p] else [])
         (followers db))
    (posts db).

(** [User.query.filter_by(id=i).first()] *)
Definition user_by_id (db : DB) (i : option Z) : option User.t :=
  match i with
  | Some n => find (fun u => User.id u =? n) (users db)
  | None => None
  end.

(** The result is a Python [set]: a list without repetition, in which only
    membership is meaningful. *)
Definition followed_users (db : DB) (self : User.t) : list (option User.t) :=
  nodup opt_user_eq_dec
    (map (fun p => user_by_id db (Post.user_id p)) (posts_join_followed db self)).

(* ------------------------------------------------------------------ *)
(** ** The feed *)

Definition posts_own (db : DB) (self : User.t) : list Post.t :=
  filter (fun p => col_eqb (Post.user_id p) (User.id self)) (posts db).

(** [ORDER BY timestamp DESC]. Rows with equal timestamps come out in an
    order the store chooses; here they keep their relative order, and no
    statement below depends on that choice. *)
Fixpoint insert_desc (p : Post.t) (l : list Post.t) : list Post.t :=
  match l with
  | [] => [p]
  | q :: r =>
      if Post.timestamp q <=? Post.timestamp p then p :: l
      else q :: insert_desc p r
  end.

Definition order_by_timestamp_desc (l : list Post.t) : list Post.t :=
  fold_right insert_desc [] l.

(** [followed.union(own).order_by(Post.timestamp.desc())]; [UNION] keeps
    one copy of each row. *)
Definition followed_posts (db : DB) (self : User.t) : list Post.t :=
  order_by_timestamp_desc
    (nodup post_eq_dec (posts_join_followed db self ++ posts_own db self)).

(* ------------------------------------------------------------------ *)
(** ** Session loader *)

(** [User.query.get(n)]: the row with primary key [n], or [None]. Keys
    are unbounded integers here; the integer range of the store is left
    out, so the definition stands for the query on keys of the signed
    64-bit range only. *)
Definition query_get (db : DB) (n : Z) : option User.t :=
  find (fun u => User.id u =? n) (users db).

Definition load_user (db : DB) (id : string) : Result (option User.t) :=
  n <- py_int id ;;
  Return (query_get db n).

(* ------------------------------------------------------------------ *)
(** ** The remaining methods of [User] and [Post] *)

(** What [str.format] prints for a nullable text column: the text, or
    [None] by its name. *)
Definition format_text (v : option string) : string :=
  match v with
  | Some t => t
  | None => "None"
  end.

(** [User.__repr__] *)
Definition user_repr (self : User.t) : string :=
  "<User " ++ format_text (User.username self) ++ ">".

(** [Post.__repr__] *)
Definition post_repr (self : Post.t) : string :=
  "<Post " ++ format_text (Post.url self) ++ ">".

Definition set_poster (self : User.t) (status : bool) : User.t :=
  User.mk (User.id self) (User.username self) (User.email self)
    (User.about_me self) (User.last_seen self) (User.password_hash self)
    status.

Definition is_poster (self : User.t) : bool := User.poster self.

(** [get_id], which [User] inherits from [UserMixin]: the key as text. *)
Definition get_id (self : User.t) : string := py_str (User.id self).

(** The method [followers] (models.py 82) is left out: the [backref] of the
    same name declared with [followed] takes its place on the class when
    the mappers are configured, so the body of the method is never run. *)

(* ------------------------------------------------------------------ *)
(** ** Configuration ([config.py]) *)

Definition ascii_uppercase : string := "ABCDEFGHIJKLMNOPQRSTUVWXYZ".
Definition digits : string := "0123456789".

(** [random.choice(seq)], [k] being the index that the generator draws;
    the generator only draws an index below the length. *)
Definition choice (seq : string) (k : nat) : option ascii := String.get k seq.

(** [[""].join(random.choice(seq) for _ in ...)], one draw per character. *)
Fixpoint join_choices (seq : string) (draws : list nat) : option string :=
  match draws with
  | [] => Some EmptyString
  | k :: r =>
      match choice seq k, join_choices seq r with
      | Some c, Some t => Some (String c t)
      | _, _ => None
      end
  end.

(** [rand_string]: thirty draws, [draw i] being the index drawn at step
    [i]. *)
Definition rand_string (draw : nat -> nat) : option string :=
  join_choices (ascii_uppercase ++ digits) (map draw (seq 0 30)).

(** [value or fallback] for a value that is a text or [None]: the empty
    text counts as absent. *)
Definition text_or (value : option string) (fallback : string) : string :=
  match value with
  | Some EmptyString => fallback
  | Some t => t
  | None => fallback
  end.

Record Config : Type := mkConfig {
  SECRET_KEY : string;
  SQLALCHEMY_DATABASE_URI : option string;
  SQLALCHEMY_TRACK_MODIFICATIONS : bool;
  POSTS_PER_PAGE : Z
}.

(** The class body of [Config], for an environment [environ] and the
    module's [rand_string]. *)
Definition make_config (environ : string -> option string) (fallback : string)
  : Config :=
  mkConfig (text_or (environ "SECRET_KEY") fallback)
    (environ "SQLALCHEMY_DATABASE_URI") false 2.

(** Loading the module: [rand_string] is drawn, then the class is built. *)
Definition load_config (environ : string -> option string) (draw : nat -> nat)
  : option Config :=
  option_map (make_config environ) (rand_string draw).

(* ------------------------------------------------------------------ *)
(** ** Vocabulary of the statements *)

Definition edge_eq_dec (e f : Z * Z) : {e = f} + {e <> f}.
Proof.
  decide equality; apply Z.eq_dec.
Defined.

Arguments edge_eq_dec : simpl never.
Arguments post_eq_dec : simpl never.
Arguments user_eq_dec : simpl never.
Arguments opt_user_eq_dec : simpl never.

(** Number of rows [(a, b)] stored in [followers]. *)
Definition edge_count (db : DB) (a b : Z) : nat :=
  count_occ edge_eq_dec (followers db) (a, b).

(** The pair [(a, b)] is stored at most once, as the data model asks of
    every pair. *)
Definition no_duplicate_edge (db : DB) (a b : Z) : Prop :=
  (edge_count db a b <= 1)%nat.

(** The integers that any store takes as a key value: the signed 64-bit
    range. Outside it the driver may refuse the value before any row is
    looked up. *)
Definition in_key_range (n : Z) : Prop := - 2 ^ 63 <= n < 2 ^ 63.

(** The longest text that every interpreter converts: recent ones refuse a
    number of more than 4300 digits. *)
Definition max_int_text : nat := 4300.

(** The primary key of [user]: no two rows share an [id]. *)
Definition user_key_unique (db : DB) : Prop :=
  NoDup (map User.id (users db)).

(** [follows db a b]: the table holds an edge from [a] to [b]. *)
Definition follows (db : DB) (a b : Z) : Prop := In (a, b) (followers db).

(** [authored_by p i]: the author column of [p] holds [i]. *)
Definition authored_by (p : Post.t) (i : Z) : Prop := Post.user_id p = Some i.

(** [newer_first p q]: [p] may stand before [q] in a feed. *)
Definition newer_first (p q : Post.t) : Prop :=
  Post.timestamp q <= Post.timestamp p.

(** The text [method$salt$digest] of a stored password hash. *)
Definition stored_hash (method salt digest : string) : string :=
  method ++ "$" ++ salt ++ "$" ++ digest.

Section PasswordVocabulary.
Context `{Crypto}.

(** [matches_stored s p]: [s] reads [method$salt$digest] and the digest
    of [p] under that method and salt is the one stored. *)
Definition matches_stored (s p : string) : Prop :=
  exists method salt digest actual,
    s = stored_hash method salt digest
    /\ str_count "$" method = O /\ str_count "$" salt = O
    /\ hash_internal method salt p = Return (digest, actual).

(** [digest_raises s p e]: [s] reads [method$salt$digest] and the digest
    routine raises [e] for that method and salt on [p]. *)
Definition digest_raises (s p : string) (e : PyException) : Prop :=
  exists method salt digest,
    s = stored_hash method salt digest
    /\ str_count "$" method = O /\ str_count "$" salt = O
    /\ hash_internal method salt p = Raise e.
End PasswordVocabulary.

(** [small_of_capital c d]: [c] is a capital letter and [d] the
    corresponding small letter. *)
Definition small_of_capital (c d : ascii) : Prop :=
  ((65 <= code c <= 90) \/ (192 <= code c <= 214) \/ (216 <= code c <= 222))%nat
  /\ code d = (code c + 32)%nat.

(** Two texts that differ only in letter case. *)
Inductive same_up_to_case : string -> string -> Prop :=
| same_case_nil : same_up_to_case EmptyString EmptyString
| same_case_cons (c d : ascii) (s t : string) :
    c = d \/ small_of_capital c d \/ small_of_capital d c ->
    same_up_to_case s t ->
    same_up_to_case (String c s) (String d t).

(** A stored user: a row of the [user] table of a store that respects the
    primary key. *)
Definition stored (db : DB) (u : User.t) : Prop :=
  user_key_unique db /\ In u (users db).

(* ------------------------------------------------------------------ *)
(** ** Sample data *)

Definition new_user (i : Z) (name mail : string) : User.t :=
  User.mk i (Some name) (Some mail) None None None false.

Definition alice : User.t := new_user 1 "alice" "Alice@Example.com".
Definition bob : User.t := new_user 2 "bob" "bob@example.com".

Definition post_1 : Post.t := Post.mk 1 (Some "u1") (Some "first") 1000 (Some 1).
Definition post_2 : Post.t := Post.mk 2 (Some "u2") (Some "second") 1100 (Some 1).
Definition post_3 : Post.t := Post.mk 3 (Some "u3") (Some "third") 1050 (Some 2).

(** Two accounts, nobody has posted, nobody follows anybody. *)
Definition db_no_posts : DB := mkDB [alice; bob] [] [].

(** Alice has posted twice, Bob once; Bob follows Alice. *)
Definition db_feed : DB := mkDB [alice; bob] [post_1; post_2; post_3] [(2, 1)].

(** Alice follows herself. *)
Definition db_self : DB := mkDB [alice; bob] [post_1; post_2; post_3] [(1, 1)].

(** Alice has just followed Bob. *)
Definition db_followed : DB := follow db_no_posts alice bob.

(** The edge from Alice to Bob stored twice. *)
Definition db_twice : DB := mkDB [alice; bob] [] [(1, 2); (1, 2)].

(** Alice under another spelling of her address. *)
Definition alice_shouting : User.t := new_user 4 "alice2" "ALICE@example.COM".

(** Bob with a stored hash whose digest is not the one of "pw". *)
Definition bob_hashed : User.t :=
  User.mk 2 (Some "bob") (Some "bob@example.com") None None
    (Some "m$s$dead") false.

(** A stand-in for the digest routines, to run the definitions. *)
Definition sample_crypto : Crypto := {|
  md5_hexdigest := fun data => string_of_list_byte data;
  hash_internal := fun method salt password =>
    Return (salt ++ ":" ++ password, method ++ ":1");
  default_method := "pbkdf2:sha256"
|}.

(* ------------------------------------------------------------------ *)
(** ** Vocabulary and sample data for the wide addresses *)

(** [small_of_capital_wide c d]: [c] is a capital and [d] its small
    letter. *)
Definition small_of_capital_wide (c d : N) : Prop :=
  (65 <= c <= 90 \/ 192 <= c <= 214 \/ 216 <= c <= 222
   \/ 913 <= c <= 929 \/ 931 <= c <= 937)%N
  /\ d = (c + 32)%N.

(** Two wide texts that differ only in letter case. *)
Definition same_up_to_case_wide (s t : list N) : Prop :=
  Forall2 (fun c d => c = d \/ small_of_capital_wide c d
                      \/ small_of_capital_wide d c) s t.


(* ------------------------------------------------------------------ *)
(** ** Vocabulary and sample data for the configuration *)

(** A capital ASCII letter or a decimal digit. *)
Definition upper_or_digit (c : ascii) : Prop :=
  ((65 <= code c <= 90) \/ (48 <= code c <= 57))%nat.

(** An environment in which [SECRET_KEY] is set to the empty text. *)
Definition environ_empty_key (name : string) : option string :=
  if String.eqb name "SECRET_KEY" then Some EmptyString else None.

(** A generator whose draw at step [i] is [i]. *)
Definition draw_in_turn (i : nat) : nat := i.

(* ------------------------------------------------------------------ *)
(** ** Proof automation *)

(** [stored db u] on sample data. *)
Ltac stored_by_computation :=
  split; [repeat constructor; simpl; intuition discriminate
         | simpl; auto].

(** Boolean tests on code points, by cases on each comparison. *)
Ltac decide_code_tests :=
  repeat match goal with
         | |- context [(?a <=? ?b)%nat] => destruct (Nat.leb_spec a b)
         | |- context [(?a =? ?b)%nat] => destruct (Nat.eqb_spec a b)
         end;
  simpl; try reflexivity; try lia.


(* ------------------------------------------------------------------ *)
(** ** Counting the rows of the [followed] query *)

Lemma filter_pair_count (a b : Z) (es : list (Z * Z)) :
  List.length (filter (fun e => (fst e =? a) && (snd e =? b)) es)
  = count_occ edge_eq_dec es (a, b).
Proof.
  induction es as [|[x y] es IH]; simpl; [reflexivity|].
  destruct (edge_eq_dec (x, y) (a, b)) as [E|E].
  - inversion E; subst. rewrite !Z.eqb_refl. simpl. now rewrite IH.
  - destruct (Z.eqb_spec x a), (Z.eqb_spec y b); simpl; try apply IH.
    subst. exfalso. now apply E.
Qed.

Lemma followed_rows_of_user (u : User.t) (a b : Z) (es : list (Z * Z)) :
  List.length
    (filter (fun r : User.t * (Z * Z) => snd (snd r) =? b)
       (map (pair u)
          (filter (fun e => (fst e =? a) && (snd e =? User.id u)) es)))
  = if User.id u =? b then count_occ edge_eq_dec es (a, b) else O.
Proof.
  induction es as [|[x y] es IH]; simpl.
  - now destruct (User.id u =? b).
  - destruct (edge_eq_dec (x, y) (a, b)) as [E|E];
      (destruct (Z.eqb_spec x a) as [Ea|Ea];
       [destruct (Z.eqb_spec y (User.id u)) as [Eu|Eu]|]); simpl; subst;
      destruct (Z.eqb_spec (User.id u) b) as [Eb|Eb]; simpl; rewrite ?IH;
      try reflexivity; try (inversion E; congruence);
      try (exfalso; apply E; congruence).
Qed.

(** The rows counted by [is_following]: one per stored user carrying the
    target's id and per edge of the pair. *)
Lemma followed_rows_count (db : DB) (self user : User.t) :
  List.length
    (filter (fun r => snd (snd r) =? User.id user) (followed db self))
  = Nat.mul
      (List.length (filter (fun u => User.id u =? User.id user) (users db)))
      (edge_count db (User.id self) (User.id user)).
Proof.
  unfold followed, edge_count.
  induction (users db) as [|u us IH]; simpl; [reflexivity|].
  rewrite filter_app, length_app, IH, followed_rows_of_user.
  destruct (User.id u =? User.id user); simpl; lia.
Qed.

Lemma key_absent_no_row (k : Z) (us : list User.t) :
  ~ In k (map User.id us) ->
  List.length (filter (fun u => User.id u =? k) us) = O.
Proof.
  induction us as [|u us IH]; simpl; intros Hk; [reflexivity|].
  destruct (Z.eqb_spec (User.id u) k) as [E|E].
  - exfalso. apply Hk. now left.
  - apply IH. intros Hin. apply Hk. now right.
Qed.

Lemma key_unique_one_row (us : list User.t) (x : User.t) :
  NoDup (map User.id us) -> In x us ->
  List.length (filter (fun u => User.id u =? User.id x) us) = 1%nat.
Proof.
  induction us as [|u us IH]; simpl; intros Hnd Hin; [contradiction|].
  inversion Hnd as [|k ks Hk Hnd']; subst.
  destruct Hin as [->|Hin].
  - rewrite Z.eqb_refl. simpl. now rewrite key_absent_no_row.
  - destruct (Z.eqb_spec (User.id u) (User.id x)) as [E|E].
    + exfalso. apply Hk. rewrite E. now apply in_map.
    + now apply IH.
Qed.

(** For a stored target the query counts the edges of the pair. *)
Lemma is_following_edge_count (db : DB) (self user : User.t) :
  stored db user ->
  is_following db self user
  = Nat.eqb (edge_count db (User.id self) (User.id user)) 1.
Proof.
  intros [Hk Hin]. unfold is_following.
  rewrite followed_rows_count, (key_unique_one_row _ _ Hk Hin).
  now rewrite Nat.mul_1_l.
Qed.

(** Whatever the [user] table holds, a positive answer needs exactly one
    edge. *)
Lemma is_following_true_one_edge (db : DB) (self user : User.t) :
  is_following db self user = true ->
  edge_count db (User.id self) (User.id user) = 1%nat.
Proof.
  unfold is_following. rewrite followed_rows_count.
  intros E. apply Nat.eqb_eq in E. now apply Nat.mul_eq_1 in E.
Qed.

Lemma edge_count_append (db : DB) (self user : User.t) (a b : Z) :
  edge_count (followed_append db self user) a b
  = (edge_count db a b
     + if edge_eq_dec (User.id self, User.id user) (a, b) then 1 else 0)%nat.
Proof.
  unfold edge_count, followed_append; simpl.
  rewrite count_occ_app. simpl.
  now destruct (edge_eq_dec (User.id self, User.id user) (a, b)).
Qed.

Lemma edge_count_remove (db : DB) (self user : User.t) (a b : Z) :
  edge_count (followed_remove db self user) a b
  = if edge_eq_dec (User.id self, User.id user) (a, b) then O
    else edge_count db a b.
Proof.
  unfold edge_count, followed_remove; simpl.
  induction (followers db) as [|[x y] es IH]; simpl.
  - now destruct (edge_eq_dec _ _).
  - destruct (Z.eqb_spec x (User.id self)) as [Ex|Ex];
      destruct (Z.eqb_spec y (User.id user)) as [Ey|Ey]; simpl; rewrite ?IH;
      destruct (edge_eq_dec (User.id self, User.id user) (a, b)) as [E|E];
      destruct (edge_eq_dec (x, y) (a, b)) as [F|F];
      try reflexivity; try congruence.
    all: inversion E; inversion F; congruence.
Qed.

Lemma stored_append (db : DB) (self user x : User.t) :
  stored db x -> stored (followed_append db self user) x.
Proof. intros H; exact H. Qed.

(* ------------------------------------------------------------------ *)
(** ** The follow graph *)

(** C5. For a stored user B, [A.is_following(B)] answers true exactly when
    the [followers] table holds exactly one row [(A.id, B.id)]; with two or
    more such rows it answers false: the test is [count == 1]. *)
Theorem is_following_iff_exactly_one_edge (db : DB) (a b : User.t) :
  stored db b ->
  (is_following db a b = true
   <-> edge_count db (User.id a) (User.id b) = 1%nat)
  /\ ((1 < edge_count db (User.id a) (User.id b))%nat ->
      is_following db a b = false).
Proof.
  intros Hb. rewrite (is_following_edge_count db a b Hb). split.
  - apply Nat.eqb_eq.
  - intros Hlt. apply Nat.eqb_neq. lia.
Qed.

Lemma is_following_iff_exactly_one_edge_witness :
  stored db_twice bob
  /\ (1 < edge_count db_twice (User.id alice) (User.id bob))%nat
  /\ is_following db_twice alice bob = false
  /\ (is_following db_followed alice bob = true
      <-> edge_count db_followed (User.id alice) (User.id bob) = 1%nat).
Proof.
  assert (Hs : stored db_twice bob) by stored_by_computation.
  assert (Hs' : stored db_followed bob) by stored_by_computation.
  assert (H2 : (1 < edge_count db_twice (User.id alice) (User.id bob))%nat)
    by (vm_compute; lia).
  split; [exact Hs|]. split; [exact H2|]. split.
  - exact (proj2 (is_following_iff_exactly_one_edge db_twice alice bob Hs) H2).
  - exact (proj1 (is_following_iff_exactly_one_edge db_followed alice bob Hs')).
Defined.

Lemma follow_from_no_edge (db : DB) (a b : User.t) :
  edge_count db (User.id a) (User.id b) = O ->
  follow db a b = followed_append db a b.
Proof.
  intros H0. unfold follow.
  destruct (is_following db a b) eqn:E; [|reflexivity].
  apply is_following_true_one_edge in E. lia.
Qed.

Lemma follow_with_one_edge (db : DB) (a b : User.t) :
  stored db b ->
  edge_count db (User.id a) (User.id b) = 1%nat ->
  follow db a b = db.
Proof.
  intros Hb H1. unfold follow.
  now rewrite (is_following_edge_count db a b Hb), H1.
Qed.

Lemma follows_edge_count (db : DB) (a b : Z) :
  follows db a b <-> (1 <= edge_count db a b)%nat.
Proof.
  unfold follows, edge_count. rewrite (count_occ_In edge_eq_dec). lia.
Qed.

(** With the pair stored twice or more, [follow] stores it once more. *)
Lemma follow_with_duplicates (db : DB) (a b : User.t) :
  (2 <= edge_count db (User.id a) (User.id b))%nat ->
  follow db a b = followed_append db a b.
Proof.
  intros H2. unfold follow.
  destruct (is_following db a b) eqn:E; [|reflexivity].
  apply is_following_true_one_edge in E. lia.
Qed.

(** [follow] never stores a pair a second time. *)
Lemma follow_keeps_no_duplicate (db : DB) (a b : User.t) (x y : Z) :
  stored db b ->
  no_duplicate_edge db x y -> no_duplicate_edge (follow db a b) x y.
Proof.
  unfold no_duplicate_edge. intros Hb Hxy. unfold follow.
  rewrite (is_following_edge_count db a b Hb).
  destruct (Nat.eqb_spec (edge_count db (User.id a) (User.id b)) 1) as [E|E];
    simpl; [exact Hxy|].
  rewrite edge_count_append.
  destruct (edge_eq_dec (User.id a, User.id b) (x, y)) as [F|F]; [|lia].
  inversion F; subst. lia.
Qed.

Lemma is_following_after_follow (db : DB) (a b : User.t) :
  stored db b ->
  no_duplicate_edge db (User.id a) (User.id b) ->
  is_following (follow db a b) a b = true.
Proof.
  unfold no_duplicate_edge. intros Hb H1. unfold follow.
  destruct (is_following db a b) eqn:E; simpl; [exact E|].
  rewrite (is_following_edge_count db a b Hb) in E. apply Nat.eqb_neq in E.
  rewrite (is_following_edge_count _ a b (stored_append db a b b Hb)).
  rewrite edge_count_append.
  destruct (edge_eq_dec (User.id a, User.id b) (User.id a, User.id b));
    [|congruence].
  apply Nat.eqb_eq. lia.
Qed.

(** C6, as stated, fails: with the pair stored twice the edge exists, yet
    [follow] stores it a third time. *)
Lemma follow_with_edge_present_inserts :
  follows db_twice (User.id alice) (User.id bob)
  /\ follow db_twice alice bob <> db_twice
  /\ edge_count (follow db_twice alice bob) (User.id alice) (User.id bob)
     = 3%nat.
Proof.
  split; [now left|]. split; [discriminate | reflexivity].
Qed.

(** C6, amended. [A.follow(B)] twice in a row from a state without the edge
    [(A.id, B.id)] leaves exactly one such row, the second call changing
    nothing; a call made when the edge is there exactly once inserts
    nothing and returns the state as it was. *)
Theorem follow_idempotent (db : DB) (a b : User.t) :
  stored db b ->
  (~ follows db (User.id a) (User.id b) ->
   edge_count (follow (follow db a b) a b) (User.id a) (User.id b) = 1%nat
   /\ follow (follow db a b) a b = follow db a b)
  /\ (no_duplicate_edge db (User.id a) (User.id b) ->
      follows db (User.id a) (User.id b) ->
      follow db a b = db).
Proof.
  intros Hb. split.
  - intros Hno. rewrite follows_edge_count in Hno.
    assert (H0 : edge_count db (User.id a) (User.id b) = O) by lia.
    rewrite (follow_from_no_edge db a b H0).
    assert (H1 : edge_count (followed_append db a b) (User.id a) (User.id b)
                 = 1%nat).
    { rewrite edge_count_append, H0.
      now destruct (edge_eq_dec (User.id a, User.id b) (User.id a, User.id b)). }
    rewrite (follow_with_one_edge _ a b (stored_append db a b b Hb) H1).
    now split.
  - unfold no_duplicate_edge. intros Hle Hin. rewrite follows_edge_count in Hin.
    apply follow_with_one_edge; [exact Hb | lia].
Qed.

Lemma follow_idempotent_witness :
  stored db_no_posts bob
  /\ ~ follows db_no_posts (User.id alice) (User.id bob)
  /\ edge_count (follow (follow db_no_posts alice bob) alice bob)
       (User.id alice) (User.id bob) = 1%nat
  /\ follow (follow db_no_posts alice bob) alice bob
     = follow db_no_posts alice bob
  /\ no_duplicate_edge db_followed (User.id alice) (User.id bob)
  /\ follows db_followed (User.id alice) (User.id bob)
  /\ follow db_followed alice bob = db_followed.
Proof.
  assert (Hs : stored db_no_posts bob) by stored_by_computation.
  assert (Hs' : stored db_followed bob) by stored_by_computation.
  assert (H0 : ~ follows db_no_posts (User.id alice) (User.id bob))
    by (intros []).
  assert (H1 : no_duplicate_edge db_followed (User.id alice) (User.id bob))
    by (unfold no_duplicate_edge; vm_compute; lia).
  assert (Hin : follows db_followed (User.id alice) (User.id bob))
    by (now left).
  split; [exact Hs|]. split; [exact H0|].
  destruct (proj1 (follow_idempotent db_no_posts alice bob Hs) H0) as [Hc Hid].
  split; [exact Hc|]. split; [exact Hid|].
  split; [exact H1|]. split; [exact Hin|].
  exact (proj2 (follow_idempotent db_followed alice bob Hs') H1 Hin).
Defined.

Lemma unfollow_not_following (db : DB) (a b : User.t) :
  is_following db a b = false -> unfollow db a b = db.
Proof. intros E. unfold unfollow. now rewrite E. Qed.

Lemma not_following_after_remove (db : DB) (a b : User.t) :
  is_following (followed_remove db a b) a b = false.
Proof.
  destruct (is_following (followed_remove db a b) a b) eqn:E; [|reflexivity].
  apply is_following_true_one_edge in E.
  rewrite edge_count_remove in E.
  destruct (edge_eq_dec (User.id a, User.id b) (User.id a, User.id b));
    [discriminate | congruence].
Qed.

(** [unfollow] never stores a pair a second time either. *)
Lemma unfollow_keeps_no_duplicate (db : DB) (a b : User.t) (x y : Z) :
  no_duplicate_edge db x y -> no_duplicate_edge (unfollow db a b) x y.
Proof.
  unfold no_duplicate_edge, unfollow. intros Hxy.
  destruct (is_following db a b); [|exact Hxy].
  rewrite edge_count_remove.
  destruct (edge_eq_dec (User.id a, User.id b) (x, y)); lia.
Qed.

(** C7, as stated, fails: with the pair stored twice the edge is present,
    yet [unfollow] removes nothing. *)
Lemma unfollow_with_edge_present_keeps_it :
  follows db_twice (User.id alice) (User.id bob)
  /\ unfollow db_twice alice bob = db_twice
  /\ follows (unfollow db_twice alice bob) (User.id alice) (User.id bob).
Proof.
  split; [now left|]. split; [reflexivity | now left].
Qed.

(** C7, amended. [A.unfollow(B)] removes the row [(A.id, B.id)] when it is
    present exactly once, touching no other row; when A is not following
    B it returns the state as it was; and a second call never changes what
    the first one left. *)
Theorem unfollow_idempotent (db : DB) (a b : User.t) :
  stored db b ->
  (no_duplicate_edge db (User.id a) (User.id b) ->
   follows db (User.id a) (User.id b) ->
   ~ follows (unfollow db a b) (User.id a) (User.id b)
   /\ (forall x y, (User.id a, User.id b) <> (x, y) ->
       edge_count (unfollow db a b) x y = edge_count db x y)
   /\ users (unfollow db a b) = users db
   /\ posts (unfollow db a b) = posts db)
  /\ (~ follows db (User.id a) (User.id b) -> unfollow db a b = db)
  /\ (is_following db a b = false -> unfollow db a b = db)
  /\ unfollow (unfollow db a b) a b = unfollow db a b.
Proof.
  intros Hb. split; [|split; [|split]].
  - unfold no_duplicate_edge. intros Hle Hin.
    rewrite follows_edge_count in Hin.
    assert (H1 : edge_count db (User.id a) (User.id b) = 1%nat) by lia.
    unfold unfollow.
    rewrite (is_following_edge_count db a b Hb), H1. simpl.
    split; [|split; [|split; reflexivity]].
    + rewrite follows_edge_count, edge_count_remove.
      destruct (edge_eq_dec (User.id a, User.id b) (User.id a, User.id b));
        [lia | congruence].
    + intros x y Hxy. rewrite edge_count_remove.
      now destruct (edge_eq_dec (User.id a, User.id b) (x, y)).
  - intros Hno. rewrite follows_edge_count in Hno.
    apply unfollow_not_following.
    destruct (is_following db a b) eqn:E; [|reflexivity].
    apply is_following_true_one_edge in E. lia.
  - apply unfollow_not_following.
  - unfold unfollow at 2 3. destruct (is_following db a b) eqn:E.
    + apply unfollow_not_following, not_following_after_remove.
    + now apply unfollow_not_following.
Qed.

Lemma unfollow_idempotent_witness :
  stored db_followed bob
  /\ no_duplicate_edge db_followed (User.id alice) (User.id bob)
  /\ follows db_followed (User.id alice) (User.id bob)
  /\ ~ follows (unfollow db_followed alice bob) (User.id alice) (User.id bob)
  /\ unfollow (unfollow db_followed alice bob) alice bob
     = unfollow db_followed alice bob.
Proof.
  assert (Hs : stored db_followed bob) by stored_by_computation.
  assert (H1 : no_duplicate_edge db_followed (User.id alice) (User.id bob))
    by (unfold no_duplicate_edge; vm_compute; lia).
  assert (Hin : follows db_followed (User.id alice) (User.id bob))
    by (now left).
  split; [exact Hs|]. split; [exact H1|]. split; [exact Hin|].
  pose proof (unfollow_idempotent db_followed alice bob Hs) as [Hrm [_ [_ Hid]]].
  split; [exact (proj1 (Hrm H1 Hin)) | exact Hid].
Defined.

(* ------------------------------------------------------------------ *)
(** ** The joined posts and the users derived from them *)

Lemma in_posts_join_followed (db : DB) (self : User.t) (p : Post.t) :
  In p (posts_join_followed db self)
  <-> In p (posts db)
      /\ exists x, follows db (User.id self) x /\ authored_by p x.
Proof.
  unfold posts_join_followed, follows, authored_by.
  rewrite in_flat_map. split.
  - intros [q [Hq Hin]]. apply in_flat_map in Hin as [[a x] [He Hin]].
    simpl in Hin.
    destruct (col_eqb (Post.user_id q) x && (a =? User.id self)) eqn:C;
      [|contradiction].
    destruct Hin as [<-|[]]. apply andb_prop in C as [C1 C2].
    apply Z.eqb_eq in C2. subst a. split; [exact Hq|].
    exists x. split; [exact He|].
    unfold col_eqb in C1. destruct (Post.user_id q) as [y|]; [|discriminate].
    apply Z.eqb_eq in C1. now subst.
  - intros [Hp [x [He Hx]]]. exists p. split; [exact Hp|].
    apply in_flat_map. exists (User.id self, x). split; [exact He|].
    simpl. rewrite Hx. simpl. rewrite !Z.eqb_refl. simpl. now left.
Qed.

Lemma in_posts_own (db : DB) (self : User.t) (p : Post.t) :
  In p (posts_own db self)
  <-> In p (posts db) /\ authored_by p (User.id self).
Proof.
  unfold posts_own, authored_by. rewrite filter_In.
  unfold col_eqb. destruct (Post.user_id p) as [y|].
  - rewrite Z.eqb_eq. split; intros [Hp E]; (split; [exact Hp|congruence]).
  - split; intros [Hp E]; discriminate.
Qed.

Lemma follows_after_follow (db : DB) (a b : User.t) :
  follows (follow db a b) (User.id a) (User.id b).
Proof.
  unfold follow, follows. destruct (is_following db a b) eqn:E; simpl.
  - apply is_following_true_one_edge in E. unfold edge_count in E.
    apply (count_occ_In edge_eq_dec). lia.
  - apply in_or_app. right. now left.
Qed.

Lemma find_by_unique_key (us : list User.t) (x : User.t) :
  NoDup (map User.id us) -> In x us ->
  find (fun u => User.id u =? User.id x) us = Some x.
Proof.
  induction us as [|u us IH]; simpl; intros Hnd Hin; [contradiction|].
  inversion Hnd as [|k ks Hk Hnd']; subst.
  destruct Hin as [->|Hin].
  - now rewrite Z.eqb_refl.
  - destruct (Z.eqb_spec (User.id u) (User.id x)) as [E|E].
    + exfalso. apply Hk. rewrite E. now apply in_map.
    + now apply IH.
Qed.

(** Whoever [followed_users] returns has authored a post. *)
Lemma followed_users_only_authors (db : DB) (self u : User.t) :
  In (Some u) (followed_users db self) ->
  exists p, In p (posts db) /\ authored_by p (User.id u).
Proof.
  unfold followed_users. rewrite nodup_In, in_map_iff.
  intros [p [Hu Hp]]. apply in_posts_join_followed in Hp as [Hp _].
  exists p. split; [exact Hp|].
  unfold user_by_id in Hu. unfold authored_by.
  destruct (Post.user_id p) as [n|]; [|discriminate].
  apply find_some in Hu as [_ E]. apply Z.eqb_eq in E. now subst.
Qed.

(** A followed user who has posted is returned. *)
Lemma followed_users_lists_authors (db : DB) (a b : User.t) :
  stored db b ->
  (exists p, In p (posts db) /\ authored_by p (User.id b)) ->
  In (Some b) (followed_users (follow db a b) a).
Proof.
  intros [Hk Hb] [p [Hp Ha]].
  unfold followed_users. rewrite nodup_In, in_map_iff.
  exists p. split.
  - rewrite Ha. unfold user_by_id.
    replace (users (follow db a b)) with (users db)
      by (unfold follow; now destruct (negb _)).
    now apply find_by_unique_key.
  - apply in_posts_join_followed. split.
    + unfold follow. now destruct (negb _).
    + exists (User.id b). split; [apply follows_after_follow | exact Ha].
Qed.

(** A followed user who has never posted is left out. *)
Lemma followed_users_omits_silent (db : DB) (a b : User.t) :
  (forall p, In p (posts db) -> ~ authored_by p (User.id b)) ->
  ~ In (Some b) (followed_users (follow db a b) a).
Proof.
  intros Hnone Hin. apply followed_users_only_authors in Hin as [p [Hp Ha]].
  apply (Hnone p); [|exact Ha].
  revert Hp. unfold follow. now destruct (negb _).
Qed.

(** C1, at the store [db_no_posts]: after Alice follows Bob, who has never
    posted, [is_following] answers true and the edge is stored, yet
    [followed_users] returns the empty set, so Bob is not in it. *)
Theorem followed_users_misses_user_without_posts :
  is_following (follow db_no_posts alice bob) alice bob = true
  /\ follows (follow db_no_posts alice bob) (User.id alice) (User.id bob)
  /\ followed_users (follow db_no_posts alice bob) alice = []
  /\ ~ In (Some bob) (followed_users (follow db_no_posts alice bob) alice).
Proof.
  split; [reflexivity|]. split; [now left|]. split; [reflexivity|].
  intros [].
Qed.

(* ------------------------------------------------------------------ *)
(** ** The feed *)

Lemma insert_desc_perm (p : Post.t) (l : list Post.t) :
  Permutation (p :: l) (insert_desc p l).
Proof.
  induction l as [|q r IH]; simpl; [reflexivity|].
  destruct (Post.timestamp q <=? Post.timestamp p); [reflexivity|].
  rewrite perm_swap. now apply perm_skip.
Qed.

Lemma order_by_perm (l : list Post.t) :
  Permutation l (order_by_timestamp_desc l).
Proof.
  induction l as [|p l IH]; simpl; [reflexivity|].
  rewrite <- insert_desc_perm. now apply perm_skip.
Qed.

Lemma insert_desc_sorted (p : Post.t) (l : list Post.t) :
  StronglySorted newer_first l -> StronglySorted newer_first (insert_desc p l).
Proof.
  induction 1 as [|q r Hr IH Hq]; simpl.
  - constructor; constructor.
  - destruct (Z.leb_spec (Post.timestamp q) (Post.timestamp p)) as [Hlt|Hge].
    + constructor; [now constructor|].
      constructor; [unfold newer_first; lia|].
      eapply Forall_impl; [|exact Hq].
      unfold newer_first. intros x Hx. lia.
    + constructor; [exact IH|].
      apply Forall_forall. intros x Hx.
      apply (Permutation_in _ (Permutation_sym (insert_desc_perm p r))) in Hx.
      destruct Hx as [<-|Hx]; [unfold newer_first; lia|].
      rewrite Forall_forall in Hq. now apply Hq.
Qed.

Lemma order_by_sorted (l : list Post.t) :
  StronglySorted newer_first (order_by_timestamp_desc l).
Proof.
  induction l as [|p l IH]; simpl; [constructor|].
  now apply insert_desc_sorted.
Qed.

Lemma in_followed_posts (db : DB) (u : User.t) (p : Post.t) :
  In p (followed_posts db u)
  <-> In p (posts_join_followed db u) \/ In p (posts_own db u).
Proof.
  unfold followed_posts. split; intros H.
  - apply (Permutation_in _ (Permutation_sym (order_by_perm _))) in H.
    apply nodup_In in H. now apply in_app_or.
  - apply (Permutation_in _ (order_by_perm _)).
    apply nodup_In. now apply in_or_app.
Qed.

Lemma followed_posts_NoDup (db : DB) (u : User.t) :
  NoDup (followed_posts db u).
Proof.
  unfold followed_posts.
  eapply Permutation_NoDup; [apply order_by_perm | apply NoDup_nodup].
Qed.

(** C2. [U.followed_posts()] holds exactly the posts authored by a user U
    follows together with the posts authored by U, each row once, the most
    recent first; when no edge leaves U it holds exactly U's own posts. *)
Theorem followed_posts_feed (db : DB) (u : User.t) :
  (forall p,
      In p (followed_posts db u)
      <-> In p (posts db)
          /\ ((exists x, follows db (User.id u) x /\ authored_by p x)
              \/ authored_by p (User.id u)))
  /\ StronglySorted newer_first (followed_posts db u)
  /\ NoDup (followed_posts db u)
  /\ ((forall x, ~ follows db (User.id u) x) ->
      forall p,
        In p (followed_posts db u)
        <-> In p (posts db) /\ authored_by p (User.id u)).
Proof.
  assert (Hin : forall p,
             In p (followed_posts db u)
             <-> In p (posts db)
                 /\ ((exists x, follows db (User.id u) x /\ authored_by p x)
                     \/ authored_by p (User.id u))).
  { intros p. rewrite in_followed_posts, in_posts_join_followed, in_posts_own.
    tauto. }
  split; [exact Hin|]. split; [apply order_by_sorted|].
  split; [apply followed_posts_NoDup|].
  intros Hnone p. rewrite Hin. split.
  - intros [Hp [[x [Hx _]]|Ha]]; [now apply Hnone in Hx | now split].
  - intros [Hp Ha]. split; [exact Hp | now right].
Qed.

Lemma followed_posts_feed_witness :
  (forall x, ~ follows db_feed (User.id alice) x)
  /\ (forall p,
         In p (followed_posts db_feed alice)
         <-> In p (posts db_feed) /\ authored_by p (User.id alice)).
Proof.
  assert (Hnone : forall x, ~ follows db_feed (User.id alice) x).
  { intros x [E|[]]. discriminate E. }
  split; [exact Hnone|].
  exact (proj2 (proj2 (proj2 (followed_posts_feed db_feed alice))) Hnone).
Defined.

(** The scenario of the specification: Bob follows Alice, and his feed
    interleaves her two posts with his own by time. *)
Example followed_posts_scenario :
  followed_posts db_feed bob = [post_2; post_3; post_1]
  /\ followed_posts db_feed alice = [post_2; post_1].
Proof. split; reflexivity. Qed.

(** C10. When the edge [(U.id, U.id)] is stored, each post of U is found by
    both branches of the union and stands exactly once in
    [U.followed_posts()]. *)
Theorem self_follow_own_posts_once (db : DB) (u : User.t) (p : Post.t) :
  follows db (User.id u) (User.id u) ->
  In p (posts db) ->
  authored_by p (User.id u) ->
  In p (posts_join_followed db u)
  /\ In p (posts_own db u)
  /\ count_occ post_eq_dec (followed_posts db u) p = 1%nat.
Proof.
  intros Hself Hp Ha.
  assert (Hj : In p (posts_join_followed db u)).
  { apply in_posts_join_followed. split; [exact Hp|]. now exists (User.id u). }
  split; [exact Hj|]. split; [now apply in_posts_own|].
  apply NoDup_count_occ'; [apply followed_posts_NoDup|].
  apply in_followed_posts. now left.
Qed.

Lemma self_follow_own_posts_once_witness :
  follows db_self (User.id alice) (User.id alice)
  /\ In post_1 (posts db_self)
  /\ authored_by post_1 (User.id alice)
  /\ count_occ post_eq_dec (followed_posts db_self alice) post_1 = 1%nat.
Proof.
  assert (Hself : follows db_self (User.id alice) (User.id alice))
    by (now left).
  assert (Hp : In post_1 (posts db_self)) by (now left).
  assert (Ha : authored_by post_1 (User.id alice)) by reflexivity.
  split; [exact Hself|]. split; [exact Hp|]. split; [exact Ha|].
  exact (proj2 (proj2
           (self_follow_own_posts_once db_self alice post_1 Hself Hp Ha))).
Defined.

(* ------------------------------------------------------------------ *)
(** ** Session loader *)

Lemma py_int_raises_ValueError (s : string) (e : PyException) :
  py_int s = Raise e -> e = ValueError.
Proof.
  unfold py_int. cbv zeta.
  match goal with
  | |- match ?signed with _ => _ end = _ -> _ => destruct signed
  end; intros E; [discriminate | now inversion E].
Qed.

Example py_int_samples :
  py_int "42" = Return 42 /\ py_int " -1_000 " = Return (-1000)
  /\ py_int "007" = Return 7 /\ py_int "" = Raise ValueError
  /\ py_int "4 2" = Raise ValueError /\ py_int "1__0" = Raise ValueError
  /\ py_int "0x1f" = Raise ValueError /\ py_int "4.0" = Raise ValueError.
Proof. repeat split; reflexivity. Qed.

(** A numeric identifier of a stored user loads that user. *)
Lemma load_user_known (db : DB) (s : string) (u : User.t) :
  stored db u -> py_int s = Return (User.id u) ->
  load_user db s = Return (Some u).
Proof.
  intros [Hk Hu] E. unfold load_user, query_get. rewrite E. simpl.
  now rewrite (find_by_unique_key _ _ Hk Hu).
Qed.

(** The identifier that the login layer stores is [str(user.id)]. *)
Example load_user_round_trip :
  load_user db_feed (py_str (User.id bob)) = Return (Some bob)
  /\ load_user db_feed " 1 " = Return (Some alice).
Proof. split; reflexivity. Qed.

(** C3, as stated, fails: a non-numeric identifier makes [int] raise
    [ValueError], and [load_user] lets it through. *)
Lemma load_user_non_numeric_raises :
  load_user db_no_posts "abc" = Raise ValueError
  /\ load_user db_no_posts "abc" <> Return None.
Proof. split; [reflexivity | discriminate]. Qed.

(** C3, amended. An identifier of at most 4300 characters that parses as
    an integer of the signed 64-bit range naming no stored user yields the
    no-user result; an identifier that does not parse as an integer makes
    [load_user] raise [ValueError]. *)
Theorem load_user_unknown_or_non_numeric (db : DB) (s : string) :
  (forall n, py_int s = Return n ->
             (String.length s <= max_int_text)%nat ->
             in_key_range n ->
             (forall u, In u (users db) -> User.id u <> n) ->
             load_user db s = Return None)
  /\ ((forall n, py_int s <> Return n) -> load_user db s = Raise ValueError).
Proof.
  split.
  - intros n E _ _ Hnone. unfold load_user, query_get. rewrite E. simpl.
    destruct (find (fun u => User.id u =? n) (users db)) as [u|] eqn:F;
      [|reflexivity].
    apply find_some in F as [Hu Hn]. apply Z.eqb_eq in Hn.
    now apply Hnone in Hu.
  - intros Hno. unfold load_user.
    destruct (py_int s) as [n|e] eqn:E.
    + now contradiction (Hno n).
    + apply py_int_raises_ValueError in E. now subst.
Qed.

Lemma load_user_unknown_or_non_numeric_witness :
  py_int "7" = Return 7
  /\ (String.length "7" <= max_int_text)%nat
  /\ in_key_range 7
  /\ (forall u, In u (users db_no_posts) -> User.id u <> 7)
  /\ load_user db_no_posts "7" = Return None.
Proof.
  assert (E : py_int "7" = Return 7) by reflexivity.
  assert (Hlen : (String.length "7" <= max_int_text)%nat)
    by (unfold max_int_text; simpl; lia).
  assert (Hrange : in_key_range 7) by (unfold in_key_range; lia).
  assert (Hnone : forall u, In u (users db_no_posts) -> User.id u <> 7).
  { intros u [<-|[<-|[]]]; discriminate. }
  split; [exact E|]. split; [exact Hlen|]. split; [exact Hrange|].
  split; [exact Hnone|].
  exact (proj1 (load_user_unknown_or_non_numeric db_no_posts "7")
           7 E Hlen Hrange Hnone).
Defined.

(* ------------------------------------------------------------------ *)
(** ** Reading a stored password hash *)

Lemma str_count_app (c : ascii) (a b : string) :
  str_count c (a ++ b) = (str_count c a + str_count c b)%nat.
Proof.
  induction a as [|d a IH]; simpl; [reflexivity|]. rewrite IH. lia.
Qed.

Lemma str_cut_first (c : ascii) (a b : string) :
  str_count c a = O -> str_cut c (a ++ String c b) = Some (a, b).
Proof.
  induction a as [|d a IH]; simpl; intros H0.
  - now rewrite Ascii.eqb_refl.
  - destruct (Ascii.eqb d c); [discriminate|]. simpl in H0. now rewrite IH.
Qed.

Lemma str_split_stored_hash (method salt digest : string) :
  str_count "$" method = O -> str_count "$" salt = O ->
  str_split "$" 2 (stored_hash method salt digest) = [method; salt; digest].
Proof.
  intros Hm Hs. unfold stored_hash. simpl.
  rewrite (str_cut_first _ _ _ Hm). now rewrite (str_cut_first _ _ _ Hs).
Qed.

Lemma str_count_stored_hash (method salt digest : string) :
  (2 <= str_count "$" (stored_hash method salt digest))%nat.
Proof.
  unfold stored_hash. rewrite str_count_app. simpl.
  rewrite str_count_app. simpl. lia.
Qed.

Lemma str_count_cut (c : ascii) (s : string) :
  (1 <= str_count c s)%nat ->
  exists a b, s = a ++ String c b /\ str_count c a = O
              /\ str_count c s = S (str_count c b).
Proof.
  induction s as [|d s IH]; simpl; intros Hc; [lia|].
  destruct (Ascii.eqb_spec d c) as [->|Hd].
  - exists EmptyString, s. now repeat split.
  - destruct (IH Hc) as (a & b & -> & Ha & Hb).
    exists (String d a), b. simpl.
    destruct (Ascii.eqb_spec d c); [contradiction|]. now repeat split.
Qed.

(** Any text with two separators reads [method$salt$digest] in one way. *)
Lemma stored_hash_decompose (s : string) :
  (2 <= str_count "$" s)%nat ->
  exists method salt digest,
    s = stored_hash method salt digest
    /\ str_count "$" method = O /\ str_count "$" salt = O.
Proof.
  intros H2. destruct (str_count_cut "$" s) as (m & r & -> & Hm & Hr); [lia|].
  destruct (str_count_cut "$" r) as (salt & d & -> & Hs & _); [lia|].
  exists m, salt, d. now repeat split.
Qed.

Section Passwords.
Context `{Crypto}.

Lemma check_password_hash_stored (method salt digest p : string) :
  str_count "$" method = O -> str_count "$" salt = O ->
  check_password_hash (Some (stored_hash method salt digest)) p
  = (r <- hash_internal method salt p ;;
     Return (String.eqb (fst r) digest)).
Proof.
  intros Hm Hs. unfold check_password_hash.
  pose proof (str_count_stored_hash method salt digest) as H2.
  destruct (Nat.ltb_spec (str_count "$" (stored_hash method salt digest)) 2);
    [lia|].
  now rewrite (str_split_stored_hash _ _ _ Hm Hs).
Qed.

(** A matching input is accepted. *)
Lemma check_password_match (u : User.t) (s p : string) :
  User.password_hash u = Some s -> matches_stored s p ->
  check_password u p = Return true.
Proof.
  intros Hu (m & salt & d & am & -> & Hm & Hs & Hh).
  unfold check_password. rewrite Hu, (check_password_hash_stored _ _ _ _ Hm Hs), Hh.
  simpl. now rewrite String.eqb_refl.
Qed.

(** C4, amended. With no hash stored, [check_password] raises
    [AttributeError]. With a hash stored, an input that does not match it
    is answered false, unless the digest routine itself raises for the
    stored method, in which case that exception comes out. *)
Theorem check_password_mismatch (u : User.t) (p : string) :
  (User.password_hash u = None -> check_password u p = Raise AttributeError)
  /\ (forall s,
         User.password_hash u = Some s ->
         ~ matches_stored s p ->
         check_password u p = Return false
         \/ exists e, digest_raises s p e /\ check_password u p = Raise e).
Proof.
  split.
  - intros Hu. unfold check_password. now rewrite Hu.
  - intros s Hu Hno. unfold check_password. rewrite Hu.
    destruct (Nat.ltb_spec (str_count "$" s) 2) as [Hlt|Hge].
    + left. unfold check_password_hash.
      destruct (Nat.ltb_spec (str_count "$" s) 2); [reflexivity | lia].
    + destruct (stored_hash_decompose s Hge) as (m & salt & d & -> & Hm & Hs).
      rewrite (check_password_hash_stored _ _ _ _ Hm Hs).
      destruct (hash_internal m salt p) as [[d' am]|e] eqn:Hh; simpl.
      * left. destruct (String.eqb_spec d' d) as [->|Hd]; [|reflexivity].
        exfalso. apply Hno. now exists m, salt, d, am.
      * right. exists e. split; [|reflexivity]. now exists m, salt, d.
Qed.

(** C8, amended. Right after [set_password(p)] has stored a hash,
    [check_password(p)] returns true, provided the digest routine returns
    for the default method, records a method name free of the separator
    and gives the same digest again under that recorded name; before any
    password has been set, [check_password] raises [AttributeError] on
    every input. *)
Theorem set_password_then_check (u : User.t) :
  (forall salt p digest actual actual',
      str_count "$" salt = O ->
      hash_internal default_method salt p = Return (digest, actual) ->
      str_count "$" actual = O ->
      hash_internal actual salt p = Return (digest, actual') ->
      exists u', set_password u salt p = Return u'
                 /\ check_password u' p = Return true)
  /\ (User.password_hash u = None ->
      forall x, check_password u x = Raise AttributeError).
Proof.
  split.
  - intros salt p d am am' Hs Hgen Ham Hagain.
    unfold set_password, generate_password_hash. rewrite Hgen. simpl.
    eexists. split; [reflexivity|].
    apply (check_password_match _ (stored_hash am salt d)); [reflexivity|].
    now exists am, salt, d, am'.
  - intros Hu x. unfold check_password. now rewrite Hu.
Qed.
End Passwords.

(** C4, as stated, fails: with no hash set the call raises instead of
    returning false. *)
Lemma check_password_unset_raises :
  User.password_hash alice = None
  /\ @check_password sample_crypto alice "secret" = Raise AttributeError
  /\ @check_password sample_crypto alice "secret" <> Return false.
Proof. split; [reflexivity|]. split; [reflexivity | discriminate]. Qed.

Lemma check_password_mismatch_witness :
  User.password_hash bob_hashed = Some "m$s$dead"
  /\ ~ @matches_stored sample_crypto "m$s$dead" "pw"
  /\ (@check_password sample_crypto bob_hashed "pw" = Return false
      \/ exists e, @digest_raises sample_crypto "m$s$dead" "pw" e
                   /\ @check_password sample_crypto bob_hashed "pw" = Raise e).
Proof.
  assert (Hu : User.password_hash bob_hashed = Some "m$s$dead") by reflexivity.
  assert (Hno : ~ @matches_stored sample_crypto "m$s$dead" "pw").
  { intros (m & salt & d & am & Hs & Hm & Hsalt & Hh).
    apply (f_equal (str_split "$" 2)) in Hs.
    rewrite (str_split_stored_hash _ _ _ Hm Hsalt) in Hs.
    inversion Hs; subst. discriminate Hh. }
  split; [exact Hu|]. split; [exact Hno|].
  exact (proj2 (@check_password_mismatch sample_crypto bob_hashed "pw")
           "m$s$dead" Hu Hno).
Defined.

(** C8, as stated, fails: before any password is set the call raises
    instead of returning false. *)
Lemma check_password_before_set_raises :
  User.password_hash bob = None
  /\ @check_password sample_crypto bob "anything" <> Return false
  /\ @check_password sample_crypto bob "" <> Return false.
Proof. split; [reflexivity|]. split; discriminate. Qed.

Lemma set_password_then_check_witness :
  str_count "$" "s4lt" = O
  /\ @hash_internal sample_crypto (@default_method sample_crypto) "s4lt" "pw"
     = Return ("s4lt:pw", "pbkdf2:sha256:1")
  /\ str_count "$" "pbkdf2:sha256:1" = O
  /\ @hash_internal sample_crypto "pbkdf2:sha256:1" "s4lt" "pw"
     = Return ("s4lt:pw", "pbkdf2:sha256:1:1")
  /\ exists u', @set_password sample_crypto bob "s4lt" "pw" = Return u'
                /\ @check_password sample_crypto u' "pw" = Return true.
Proof.
  repeat (split; [reflexivity|]).
  apply (proj1 (@set_password_then_check sample_crypto bob)
           "s4lt" "pw" "s4lt:pw" "pbkdf2:sha256:1" "pbkdf2:sha256:1:1");
    reflexivity.
Defined.

(* ------------------------------------------------------------------ *)
(** ** The avatar URL *)

Lemma capital_is_upper (c d : ascii) :
  small_of_capital c d -> is_upper c = true /\ is_upper d = false.
Proof.
  intros [Hc Hd]. unfold is_upper. rewrite Hd.
  pose proof (nat_ascii_bounded c) as Hb. fold (code c) in Hb.
  split; decide_code_tests.
Qed.

Lemma lower_char_of_pair (c d : ascii) :
  small_of_capital c d -> lower_char c = lower_char d.
Proof.
  intros Hcd. destruct (capital_is_upper c d Hcd) as [Hc Hd].
  unfold lower_char. rewrite Hc, Hd.
  destruct Hcd as [_ <-]. unfold code. apply ascii_nat_embedding.
Qed.

Lemma py_lower_same_up_to_case (s t : string) :
  same_up_to_case s t -> py_lower s = py_lower t.
Proof.
  induction 1 as [|c d s t Hcd _ IH]; simpl; [reflexivity|].
  rewrite IH. f_equal.
  destruct Hcd as [->|[Hcd|Hdc]];
    [reflexivity | now apply lower_char_of_pair
     | symmetry; now apply lower_char_of_pair].
Qed.

Section Avatar.
Context `{Crypto}.

End Avatar.


(* ================================================================== *)
(** * Further properties of the models *)

(* ------------------------------------------------------------------ *)
(** ** How [follow] and [unfollow] compose *)

Lemma users_follow (db : DB) (a b : User.t) : users (follow db a b) = users db.
Proof. unfold follow. now destruct (negb _). Qed.

Lemma posts_follow (db : DB) (a b : User.t) : posts (follow db a b) = posts db.
Proof. unfold follow. now destruct (negb _). Qed.

Lemma users_unfollow (db : DB) (a b : User.t) :
  users (unfollow db a b) = users db.
Proof. unfold unfollow. now destruct (is_following _ _ _). Qed.

Lemma posts_unfollow (db : DB) (a b : User.t) :
  posts (unfollow db a b) = posts db.
Proof. unfold unfollow. now destruct (is_following _ _ _). Qed.

Lemma remove_absent_edge (a b : Z) (es : list (Z * Z)) :
  ~ In (a, b) es ->
  filter (fun e => negb ((fst e =? a) && (snd e =? b))) es = es.
Proof.
  induction es as [|[x y] es IH]; simpl; intros Hno; [reflexivity|].
  destruct (Z.eqb_spec x a) as [Ex|Ex]; destruct (Z.eqb_spec y b) as [Ey|Ey];
    simpl; try (rewrite IH; [reflexivity | tauto]).
  subst. exfalso. apply Hno. now left.
Qed.

Lemma is_following_by_counts (db db' : DB) (c d : User.t) :
  users db' = users db ->
  edge_count db' (User.id c) (User.id d) = edge_count db (User.id c) (User.id d) ->
  is_following db' c d = is_following db c d.
Proof.
  intros Hu He. unfold is_following.
  now rewrite !followed_rows_count, Hu, He.
Qed.

(** X1. From a state in which A does not follow the stored user B,
    [A.follow(B)] followed by [A.unfollow(B)] gives back the very same
    tables. *)
Theorem unfollow_after_follow_restores (db : DB) (a b : User.t) :
  stored db b ->
  ~ follows db (User.id a) (User.id b) ->
  unfollow (follow db a b) a b = db.
Proof.
  intros Hb Hno. pose proof Hno as H0. rewrite follows_edge_count in H0.
  rewrite (follow_from_no_edge db a b) by lia.
  unfold unfollow.
  rewrite (is_following_edge_count _ a b (stored_append db a b b Hb)).
  rewrite edge_count_append.
  destruct (edge_eq_dec (User.id a, User.id b) (User.id a, User.id b));
    [|congruence].
  replace (edge_count db (User.id a) (User.id b)) with O by lia. simpl.
  unfold followed_remove, followed_append. simpl.
  rewrite filter_app, (remove_absent_edge _ _ _ Hno). simpl.
  rewrite !Z.eqb_refl. simpl. rewrite app_nil_r. now destruct db.
Qed.

Lemma unfollow_after_follow_restores_witness :
  stored db_feed alice
  /\ ~ follows db_feed (User.id alice) (User.id alice)
  /\ unfollow (follow db_feed alice alice) alice alice = db_feed.
Proof.
  assert (Hs : stored db_feed alice) by stored_by_computation.
  assert (Hno : ~ follows db_feed (User.id alice) (User.id alice)).
  { intros [E|[]]. discriminate E. }
  split; [exact Hs|]. split; [exact Hno|].
  exact (unfollow_after_follow_restores db_feed alice alice Hs Hno).
Defined.

(** X2. [A.follow(B)] and [A.unfollow(B)] change the answer of
    [is_following] for no other pair of ids. *)
Theorem follow_unfollow_leave_other_pairs (db : DB) (a b c d : User.t) :
  (User.id a, User.id b) <> (User.id c, User.id d) ->
  is_following (follow db a b) c d = is_following db c d
  /\ is_following (unfollow db a b) c d = is_following db c d.
Proof.
  intros Hne. split; apply is_following_by_counts.
  - apply users_follow.
  - unfold follow. destruct (negb _); [|reflexivity].
    rewrite edge_count_append.
    destruct (edge_eq_dec (User.id a, User.id b) (User.id c, User.id d));
      [contradiction | lia].
  - apply users_unfollow.
  - unfold unfollow. destruct (is_following db a b); [|reflexivity].
    rewrite edge_count_remove.
    destruct (edge_eq_dec (User.id a, User.id b) (User.id c, User.id d));
      [contradiction | reflexivity].
Qed.

Lemma follow_unfollow_leave_other_pairs_witness :
  (User.id alice, User.id bob) <> (User.id bob, User.id alice)
  /\ is_following (follow db_feed alice bob) bob alice
     = is_following db_feed bob alice
  /\ is_following (unfollow db_feed alice bob) bob alice
     = is_following db_feed bob alice.
Proof.
  assert (Hne : (User.id alice, User.id bob) <> (User.id bob, User.id alice))
    by discriminate.
  split; [exact Hne|].
  exact (follow_unfollow_leave_other_pairs db_feed alice bob bob alice Hne).
Defined.

(** X3. After [A.unfollow(B)], [A.is_following(B)] is false in every
    state; after [A.follow(B)] it is true when B is stored and the pair was
    stored at most once, A and B being possibly the same user. *)
Theorem is_following_after_each_call (db : DB) (a b : User.t) :
  is_following (unfollow db a b) a b = false
  /\ (stored db b ->
      no_duplicate_edge db (User.id a) (User.id b) ->
      is_following (follow db a b) a b = true).
Proof.
  split.
  - unfold unfollow. destruct (is_following db a b) eqn:E; [|exact E].
    apply not_following_after_remove.
  - apply is_following_after_follow.
Qed.

Lemma is_following_after_each_call_witness :
  stored db_feed alice
  /\ no_duplicate_edge db_feed (User.id alice) (User.id alice)
  /\ is_following (follow db_feed alice alice) alice alice = true.
Proof.
  assert (Hs : stored db_feed alice) by stored_by_computation.
  assert (H1 : no_duplicate_edge db_feed (User.id alice) (User.id alice))
    by (unfold no_duplicate_edge; vm_compute; lia).
  split; [exact Hs|]. split; [exact H1|].
  exact (proj2 (is_following_after_each_call db_feed alice alice) Hs H1).
Defined.

(** X4. A [followers] table without a repeated row stays without one
    through [follow] of a stored user and through [unfollow]. *)
Theorem follow_unfollow_keep_rows_distinct (db : DB) (a b : User.t) :
  stored db b ->
  NoDup (followers db) ->
  NoDup (followers (follow db a b)) /\ NoDup (followers (unfollow db a b)).
Proof.
  intros Hb Hnd. split.
  - apply (NoDup_count_occ edge_eq_dec). intros [x y].
    apply (follow_keeps_no_duplicate db a b x y Hb).
    unfold no_duplicate_edge, edge_count.
    now apply (NoDup_count_occ edge_eq_dec).
  - unfold unfollow. destruct (is_following db a b); [|exact Hnd].
    simpl. now apply NoDup_filter.
Qed.

Lemma follow_unfollow_keep_rows_distinct_witness :
  stored db_feed alice
  /\ NoDup (followers db_feed)
  /\ NoDup (followers (follow db_feed bob alice))
  /\ NoDup (followers (unfollow db_feed bob alice)).
Proof.
  assert (Hs : stored db_feed alice) by stored_by_computation.
  assert (Hnd : NoDup (followers db_feed)).
  { simpl. constructor; [intros [] | constructor]. }
  split; [exact Hs|]. split; [exact Hnd|].
  exact (follow_unfollow_keep_rows_distinct db_feed bob alice Hs Hnd).
Defined.

(** X5. Once a pair is stored twice or more, the methods never repair it:
    [is_following] answers false, [unfollow] leaves the tables as they are,
    and [follow] stores the pair once more, after which [is_following] is
    still false. *)
Theorem duplicate_edges_are_never_repaired (db : DB) (a b : User.t) :
  (2 <= edge_count db (User.id a) (User.id b))%nat ->
  is_following db a b = false
  /\ unfollow db a b = db
  /\ edge_count (follow db a b) (User.id a) (User.id b)
     = S (edge_count db (User.id a) (User.id b))
  /\ is_following (follow db a b) a b = false.
Proof.
  intros H2.
  assert (E : is_following db a b = false).
  { destruct (is_following db a b) eqn:E; [|reflexivity].
    apply is_following_true_one_edge in E. lia. }
  assert (Hc : edge_count (follow db a b) (User.id a) (User.id b)
               = S (edge_count db (User.id a) (User.id b))).
  { rewrite (follow_with_duplicates db a b H2), edge_count_append.
    destruct (edge_eq_dec (User.id a, User.id b) (User.id a, User.id b));
      [lia | congruence]. }
  split; [exact E|]. split; [now apply unfollow_not_following|].
  split; [exact Hc|].
  destruct (is_following (follow db a b) a b) eqn:F; [|reflexivity].
  apply is_following_true_one_edge in F. lia.
Qed.

Lemma duplicate_edges_are_never_repaired_witness :
  (2 <= edge_count db_twice (User.id alice) (User.id bob))%nat
  /\ unfollow db_twice alice bob = db_twice
  /\ edge_count (follow db_twice alice bob) (User.id alice) (User.id bob)
     = 3%nat.
Proof.
  assert (H2 : (2 <= edge_count db_twice (User.id alice) (User.id bob))%nat)
    by (vm_compute; lia).
  split; [exact H2|].
  destruct (duplicate_edges_are_never_repaired db_twice alice bob H2)
    as [_ [Hu [Hc _]]].
  split; [exact Hu | exact Hc].
Defined.

(** X6. When A follows the stored user B (the pair stored once),
    [A.unfollow(B)] followed by [A.follow(B)] stores every pair as many
    times as before: the graph is back, the row of the pair now last. *)
Theorem follow_after_unfollow_restores (db : DB) (a b : User.t) :
  stored db b ->
  edge_count db (User.id a) (User.id b) = 1%nat ->
  (forall x y,
      edge_count (follow (unfollow db a b) a b) x y = edge_count db x y)
  /\ Permutation (followers (follow (unfollow db a b) a b)) (followers db).
Proof.
  intros Hb H1.
  assert (Hcount : forall x y,
             edge_count (follow (unfollow db a b) a b) x y = edge_count db x y).
  { intros x y. unfold unfollow.
    rewrite (is_following_edge_count db a b Hb), H1. simpl.
    unfold follow. rewrite not_following_after_remove. simpl.
    rewrite edge_count_append, edge_count_remove.
    destruct (edge_eq_dec (User.id a, User.id b) (x, y)) as [E|E]; [|lia].
    inversion E; subst. now rewrite H1. }
  split; [exact Hcount|].
  apply (Permutation_count_occ edge_eq_dec). intros [x y]. apply Hcount.
Qed.

Lemma follow_after_unfollow_restores_witness :
  stored db_feed alice
  /\ edge_count db_feed (User.id bob) (User.id alice) = 1%nat
  /\ Permutation (followers (follow (unfollow db_feed bob alice) bob alice))
       (followers db_feed).
Proof.
  assert (Hs : stored db_feed alice) by stored_by_computation.
  assert (H1 : edge_count db_feed (User.id bob) (User.id alice) = 1%nat)
    by reflexivity.
  split; [exact Hs|]. split; [exact H1|].
  exact (proj2 (follow_after_unfollow_restores db_feed bob alice Hs H1)).
Defined.

(* ------------------------------------------------------------------ *)
(** ** The feed under [follow] and [unfollow] *)

Lemma follows_kept_by_follow (db : DB) (a b : User.t) (x y : Z) :
  follows db x y -> follows (follow db a b) x y.
Proof.
  unfold follows, follow. destruct (negb _); simpl; [|tauto].
  intros Hin. apply in_or_app. now left.
Qed.

Lemma not_follows_after_unfollow (db : DB) (a b : User.t) :
  stored db b ->
  no_duplicate_edge db (User.id a) (User.id b) ->
  ~ follows (unfollow db a b) (User.id a) (User.id b).
Proof.
  unfold no_duplicate_edge. intros Hb Hle. rewrite follows_edge_count.
  unfold unfollow. rewrite (is_following_edge_count db a b Hb).
  destruct (Nat.eqb_spec (edge_count db (User.id a) (User.id b)) 1) as [E|E].
  - rewrite edge_count_remove.
    destruct (edge_eq_dec (User.id a, User.id b) (User.id a, User.id b));
      [lia | congruence].
  - lia.
Qed.

Lemma follows_other_after_unfollow (db : DB) (a b : User.t) (x y : Z) :
  (User.id a, User.id b) <> (x, y) ->
  follows (unfollow db a b) x y <-> follows db x y.
Proof.
  intros Hne. rewrite !follows_edge_count.
  unfold unfollow. destruct (is_following db a b); [|reflexivity].
  rewrite edge_count_remove.
  now destruct (edge_eq_dec (User.id a, User.id b) (x, y)).
Qed.

Lemma in_feed (db : DB) (u : User.t) (p : Post.t) :
  In p (followed_posts db u)
  <-> In p (posts db)
      /\ ((exists x, follows db (User.id u) x /\ authored_by p x)
          \/ authored_by p (User.id u)).
Proof.
  rewrite in_followed_posts, in_posts_join_followed, in_posts_own. tauto.
Qed.

(** X7. After [A.follow(B)] every stored post of B is in A's feed, and
    every post that was in A's feed still is. *)
Theorem follow_extends_feed (db : DB) (a b : User.t) (p : Post.t) :
  (In p (posts db) -> authored_by p (User.id b) ->
   In p (followed_posts (follow db a b) a))
  /\ (In p (followed_posts db a) -> In p (followed_posts (follow db a b) a)).
Proof.
  split.
  - intros Hp Ha. apply in_feed. rewrite posts_follow. split; [exact Hp|].
    left. exists (User.id b). split; [apply follows_after_follow | exact Ha].
  - rewrite !in_feed, posts_follow. intros [Hp [[x [Hx Ha]]|Ha]].
    + split; [exact Hp|]. left. exists x.
      split; [now apply follows_kept_by_follow | exact Ha].
    + split; [exact Hp | now right].
Qed.

Lemma follow_extends_feed_witness :
  In post_3 (posts db_feed)
  /\ authored_by post_3 (User.id bob)
  /\ ~ In post_3 (followed_posts db_feed alice)
  /\ In post_3 (followed_posts (follow db_feed alice bob) alice).
Proof.
  assert (Hp : In post_3 (posts db_feed)) by (simpl; tauto).
  assert (Ha : authored_by post_3 (User.id bob)) by reflexivity.
  split; [exact Hp|]. split; [exact Ha|]. split.
  - intros [E|[E|[]]]; discriminate E.
  - exact (proj1 (follow_extends_feed db_feed alice bob post_3) Hp Ha).
Defined.

(** X8. After [A.unfollow(B)], B being a stored user other than A and the
    pair being stored at most once, no post of B is in A's feed, while a
    post of any other author is in the feed exactly when it was before. *)
Theorem unfollow_shrinks_feed (db : DB) (a b : User.t) (p : Post.t) :
  stored db b ->
  no_duplicate_edge db (User.id a) (User.id b) ->
  User.id a <> User.id b ->
  (authored_by p (User.id b) -> ~ In p (followed_posts (unfollow db a b) a))
  /\ (~ authored_by p (User.id b) ->
      (In p (followed_posts (unfollow db a b) a)
       <-> In p (followed_posts db a))).
Proof.
  intros Hb Hle Hab. split.
  - intros Ha Hin. apply in_feed in Hin as [_ [[x [Hx Hx']]|Hown]].
    + unfold authored_by in *. rewrite Ha in Hx'. inversion Hx'; subst x.
      now apply (not_follows_after_unfollow db a b Hb Hle).
    + unfold authored_by in *. congruence.
  - intros Hnot. rewrite !in_feed, posts_unfollow.
    split; (intros [Hp [[x [Hx Ha]]|Ha]]; split; try exact Hp;
            [left; exists x; split; [|exact Ha] | now right]).
    + apply (follows_other_after_unfollow db a b) in Hx; [exact Hx|].
      intros E. inversion E. subst x. now apply Hnot.
    + apply (follows_other_after_unfollow db a b); [|exact Hx].
      intros E. inversion E. subst x. now apply Hnot.
Qed.

Lemma unfollow_shrinks_feed_witness :
  stored db_feed alice
  /\ no_duplicate_edge db_feed (User.id bob) (User.id alice)
  /\ User.id bob <> User.id alice
  /\ authored_by post_1 (User.id alice)
  /\ In post_1 (followed_posts db_feed bob)
  /\ ~ In post_1 (followed_posts (unfollow db_feed bob alice) bob).
Proof.
  assert (Hs : stored db_feed alice) by stored_by_computation.
  assert (H1 : no_duplicate_edge db_feed (User.id bob) (User.id alice))
    by (unfold no_duplicate_edge; vm_compute; lia).
  assert (Hne : User.id bob <> User.id alice) by discriminate.
  assert (Ha : authored_by post_1 (User.id alice)) by reflexivity.
  split; [exact Hs|]. split; [exact H1|]. split; [exact Hne|].
  split; [exact Ha|]. split; [simpl; tauto|].
  exact (proj1 (unfollow_shrinks_feed db_feed bob alice post_1 Hs H1 Hne) Ha).
Defined.

(** X9. What another user does to the graph never changes which posts my
    feed holds: when C is not A, the feed of A after [C.follow(D)] or
    [C.unfollow(D)] holds the same posts as before, each once. *)
Theorem feed_ignores_other_followers (db : DB) (a c d : User.t) :
  User.id c <> User.id a ->
  (forall p, In p (followed_posts (follow db c d) a)
             <-> In p (followed_posts db a))
  /\ (forall p, In p (followed_posts (unfollow db c d) a)
                <-> In p (followed_posts db a))
  /\ Permutation (followed_posts (follow db c d) a) (followed_posts db a)
  /\ Permutation (followed_posts (unfollow db c d) a) (followed_posts db a).
Proof.
  intros Hne.
  assert (Hf : forall x, follows (follow db c d) (User.id a) x
                         <-> follows db (User.id a) x).
  { intros x. rewrite !follows_edge_count. unfold follow.
    destruct (negb _); [|reflexivity]. rewrite edge_count_append.
    destruct (edge_eq_dec (User.id c, User.id d) (User.id a, x)) as [E|E];
      [inversion E; contradiction | now rewrite Nat.add_0_r]. }
  assert (Hu : forall x, follows (unfollow db c d) (User.id a) x
                         <-> follows db (User.id a) x).
  { intros x. apply follows_other_after_unfollow.
    intros E. inversion E. contradiction. }
  assert (Hin1 : forall p, In p (followed_posts (follow db c d) a)
                           <-> In p (followed_posts db a)).
  { intros p. rewrite !in_feed, posts_follow.
    split; (intros [Hp [[x [Hx Ha]]|Ha]]; split; try exact Hp;
            [left; exists x; split; [now apply Hf | exact Ha] | now right]). }
  assert (Hin2 : forall p, In p (followed_posts (unfollow db c d) a)
                           <-> In p (followed_posts db a)).
  { intros p. rewrite !in_feed, posts_unfollow.
    split; (intros [Hp [[x [Hx Ha]]|Ha]]; split; try exact Hp;
            [left; exists x; split; [now apply Hu | exact Ha] | now right]). }
  split; [exact Hin1|]. split; [exact Hin2|].
  split; apply NoDup_Permutation; try apply followed_posts_NoDup; assumption.
Qed.

Lemma feed_ignores_other_followers_witness :
  User.id alice <> User.id bob
  /\ Permutation (followed_posts (follow db_feed alice bob) bob)
       (followed_posts db_feed bob)
  /\ Permutation (followed_posts (unfollow db_feed alice bob) bob)
       (followed_posts db_feed bob).
Proof.
  assert (Hne : User.id alice <> User.id bob) by discriminate.
  split; [exact Hne|].
  exact (proj2 (proj2 (feed_ignores_other_followers db_feed bob alice bob Hne))).
Defined.

(* ------------------------------------------------------------------ *)
(** ** The users derived from joined posts *)

Lemma user_by_id_some (db : DB) (i : option Z) (u : User.t) :
  user_by_id db i = Some u -> In u (users db) /\ i = Some (User.id u).
Proof.
  unfold user_by_id. destruct i as [n|]; [|discriminate].
  intros F. apply find_some in F as [Hu E]. apply Z.eqb_eq in E.
  split; [exact Hu | now subst].
Qed.

Lemma user_by_id_none (db : DB) (x : Z) :
  user_by_id db (Some x) = None
  <-> forall u, In u (users db) -> User.id u <> x.
Proof.
  unfold user_by_id. split.
  - intros F u Hu E. apply (find_none _ _ F) in Hu.
    apply Z.eqb_neq in Hu. contradiction.
  - intros Hnone.
    destruct (find (fun u => User.id u =? x) (users db)) as [u|] eqn:F;
      [|reflexivity].
    apply find_some in F as [Hu E]. apply Z.eqb_eq in E.
    now apply Hnone in Hu.
Qed.

(** X10. With unique user keys, [A.followed_users()] holds a user B
    exactly when B is stored, an edge leads from A to B, and B has authored
    a stored post. *)
Theorem followed_users_exactly (db : DB) (self u : User.t) :
  user_key_unique db ->
  (In (Some u) (followed_users db self)
   <-> In u (users db)
       /\ follows db (User.id self) (User.id u)
       /\ exists p, In p (posts db) /\ authored_by p (User.id u)).
Proof.
  intros Hk. unfold followed_users. rewrite nodup_In, in_map_iff. split.
  - intros [p [Hu Hp]]. apply user_by_id_some in Hu as [Hu Hid].
    apply in_posts_join_followed in Hp as [Hp [x [Hx Ha]]].
    unfold authored_by in Ha. rewrite Ha in Hid. inversion Hid; subst x.
    split; [exact Hu|]. split; [exact Hx|]. now exists p.
  - intros [Hu [He [p [Hp Ha]]]]. exists p. split.
    + rewrite Ha. now apply find_by_unique_key.
    + apply in_posts_join_followed. split; [exact Hp|].
      now exists (User.id u).
Qed.

Lemma followed_users_exactly_witness :
  user_key_unique db_feed
  /\ (In (Some alice) (followed_users db_feed bob)
      <-> In alice (users db_feed)
          /\ follows db_feed (User.id bob) (User.id alice)
          /\ exists p, In p (posts db_feed) /\ authored_by p (User.id alice)).
Proof.
  assert (Hk : user_key_unique db_feed).
  { repeat constructor; simpl; intuition discriminate. }
  split; [exact Hk|].
  exact (followed_users_exactly db_feed bob alice Hk).
Defined.

(** X12. [A.followed_users()] holds [None] exactly when a joined post names
    an author id that no stored user carries. *)
Theorem followed_users_holds_None (db : DB) (self : User.t) :
  In None (followed_users db self)
  <-> exists p x, In p (posts db) /\ authored_by p x
                  /\ follows db (User.id self) x
                  /\ forall u, In u (users db) -> User.id u <> x.
Proof.
  unfold followed_users. rewrite nodup_In, in_map_iff. split.
  - intros [p [Hu Hp]].
    apply in_posts_join_followed in Hp as [Hp [x [Hx Ha]]].
    exists p, x. repeat split; try assumption.
    apply user_by_id_none. unfold authored_by in Ha. now rewrite <- Ha.
  - intros [p [x [Hp [Ha [Hx Hnone]]]]]. exists p. split.
    + rewrite Ha. now apply user_by_id_none.
    + apply in_posts_join_followed. split; [exact Hp | now exists x].
Qed.

(* ------------------------------------------------------------------ *)
(** ** The stored identifier and the session loader *)

Lemma parse_digits_step (acc k : Z) (c : ascii) (r : list ascii) :
  Ascii.eqb c "_" = false -> digit_value c = Some k ->
  parse_digits acc false (c :: r) = parse_digits (10 * acc + k) false r.
Proof. simpl. now intros -> ->. Qed.

Ltac digit_step :=
  cbn [NilEmpty.string_of_uint list_ascii_of_string];
  erewrite parse_digits_step by reflexivity;
  repeat match goal with
         | |- context [Z.of_nat ?t] =>
             let v := eval vm_compute in (Z.of_nat t) in
             change (Z.of_nat t) with v
         end.

Lemma parse_digits_from (d : Decimal.uint) (a : positive) :
  parse_digits (Z.pos a) false
    (list_ascii_of_string (NilEmpty.string_of_uint d))
  = Some (Z.pos (Pos.of_uint_acc d a)).
Proof.
  revert a. induction d as [|d IH|d IH|d IH|d IH|d IH|d IH|d IH|d IH|d IH|d IH];
    intros a; [reflexivity|..]; digit_step; cbn [Pos.of_uint_acc];
    rewrite <- IH; f_equal; lia.
Qed.

Lemma parse_digits_uint (d : Decimal.uint) :
  parse_digits 0 false (list_ascii_of_string (NilEmpty.string_of_uint d))
  = Some (Z.of_uint d).
Proof.
  unfold Z.of_uint.
  induction d as [|d IH|d IH|d IH|d IH|d IH|d IH|d IH|d IH|d IH|d IH];
    [reflexivity|..]; digit_step; cbn [Pos.of_uint];
    [exact IH|..]; apply parse_digits_from.
Qed.

Lemma digits_no_space (d : Decimal.uint) :
  Forall (fun c => int_space c = false)
    (list_ascii_of_string (NilEmpty.string_of_uint d)).
Proof.
  induction d; cbn [NilEmpty.string_of_uint list_ascii_of_string];
    constructor; (reflexivity || assumption).
Qed.

Lemma lstrip_no_space (t : list ascii) :
  Forall (fun c => int_space c = false) t -> lstrip t = t.
Proof.
  destruct t as [|c r]; [reflexivity|]. intros Hall. simpl.
  inversion Hall as [|? ? Hc _]; subst. now rewrite Hc.
Qed.

Lemma strip_no_space (t : list ascii) :
  Forall (fun c => int_space c = false) t -> strip t = t.
Proof.
  intros Hall. unfold strip. rewrite (lstrip_no_space t Hall).
  rewrite lstrip_no_space by (now apply Forall_rev). apply rev_involutive.
Qed.

(** The first character of a numeral is a digit. *)
Lemma digits_head (d : Decimal.uint) :
  d <> Decimal.Nil ->
  exists c r,
    list_ascii_of_string (NilEmpty.string_of_uint d) = c :: r
    /\ Ascii.eqb c "-" = false /\ Ascii.eqb c "+" = false
    /\ Ascii.eqb c "_" = false.
Proof.
  destruct d; [congruence|..]; intros _;
    cbn [NilEmpty.string_of_uint list_ascii_of_string];
    eexists; eexists; repeat split; reflexivity.
Qed.

Lemma parse_magnitude_uint (d : Decimal.uint) :
  d <> Decimal.Nil ->
  parse_magnitude (list_ascii_of_string (NilEmpty.string_of_uint d))
  = Some (Z.of_uint d).
Proof.
  intros Hd. pose proof (parse_digits_uint d) as Hp.
  destruct (digits_head d Hd) as (c & r & E & _ & _ & Hu).
  rewrite E in *. unfold parse_magnitude. now rewrite Hu.
Qed.

Lemma py_int_uint (d : Decimal.uint) :
  d <> Decimal.Nil ->
  py_int (NilEmpty.string_of_uint d) = Return (Z.of_uint d)
  /\ py_int (String "-" (NilEmpty.string_of_uint d)) = Return (- Z.of_uint d).
Proof.
  intros Hd. pose proof (parse_magnitude_uint d Hd) as Hm.
  pose proof (digits_no_space d) as Hs.
  destruct (digits_head d Hd) as (c & r & E & Hminus & Hplus & _).
  split; unfold py_int.
  - rewrite (strip_no_space _ Hs). rewrite E in *.
    now rewrite Hminus, Hplus, Hm.
  - cbn [list_ascii_of_string]. rewrite strip_no_space.
    + cbn [Ascii.eqb Bool.eqb]. simpl Ascii.eqb. now rewrite Hm.
    + constructor; [reflexivity | exact Hs].
Qed.

(** [int(str(n))] is [n]. *)
Lemma py_int_py_str (n : Z) : py_int (py_str n) = Return n.
Proof.
  unfold py_str. destruct n as [|p|p]; [reflexivity|..];
    pose proof (Unsigned.to_uint_nonnil p) as Hd;
    destruct (py_int_uint (Pos.to_uint p) Hd) as [Hpos Hneg];
    unfold Z.of_uint in *; rewrite DecimalPos.Unsigned.of_to in *;
    cbn [Z.to_int NilZero.string_of_int]; unfold NilZero.string_of_uint;
    destruct (Pos.to_uint p); try congruence; assumption.
Qed.

(** X13. The identifier that [get_id] gives for a stored user loads that
    very user back: [load_user(u.get_id())] returns [u]. *)
Theorem load_user_get_id (db : DB) (u : User.t) :
  stored db u -> load_user db (get_id u) = Return (Some u).
Proof.
  intros Hu. apply load_user_known; [exact Hu|]. apply py_int_py_str.
Qed.

Lemma load_user_get_id_witness :
  stored db_feed bob /\ load_user db_feed (get_id bob) = Return (Some bob).
Proof.
  assert (Hs : stored db_feed bob) by stored_by_computation.
  split; [exact Hs|]. exact (load_user_get_id db_feed bob Hs).
Defined.

(** X14. Two stored users have the same identifier only when they are the
    same user. *)
Theorem get_id_identifies (db : DB) (u v : User.t) :
  stored db u -> In v (users db) -> get_id u = get_id v -> u = v.
Proof.
  intros Hu Hv E.
  pose proof (load_user_get_id db u Hu) as Lu.
  pose proof (load_user_get_id db v (conj (proj1 Hu) Hv)) as Lv.
  rewrite E in Lu. rewrite Lu in Lv. now inversion Lv.
Qed.

Lemma get_id_identifies_witness :
  stored db_feed bob /\ In bob (users db_feed) /\ get_id bob = get_id bob
  /\ bob = bob.
Proof.
  assert (Hs : stored db_feed bob) by stored_by_computation.
  assert (Hin : In bob (users db_feed)) by (simpl; tauto).
  split; [exact Hs|]. split; [exact Hin|]. split; [reflexivity|].
  exact (get_id_identifies db_feed bob bob Hs Hin eq_refl).
Defined.

(* ------------------------------------------------------------------ *)
(** ** Avatar: the lowered address *)

Lemma lower_char_related (c : ascii) :
  c = lower_char c \/ small_of_capital c (lower_char c).
Proof.
  unfold lower_char. destruct (is_upper c) eqn:U; [right | now left].
  pose proof (nat_ascii_bounded c) as Hb. fold (code c) in Hb.
  unfold small_of_capital. split.
  - unfold is_upper in U.
    repeat match type of U with
           | context [(?a <=? ?b)%nat] => destruct (Nat.leb_spec a b)
           | context [(?a =? ?b)%nat] => destruct (Nat.eqb_spec a b)
           end; simpl in U; try discriminate; lia.
  - unfold code at 1. rewrite nat_ascii_embedding; [reflexivity|].
    unfold is_upper in U.
    repeat match type of U with
           | context [(?a <=? ?b)%nat] => destruct (Nat.leb_spec a b)
           | context [(?a =? ?b)%nat] => destruct (Nat.eqb_spec a b)
           end; simpl in U; try discriminate; lia.
Qed.

Lemma same_up_to_case_lower (e : string) : same_up_to_case e (py_lower e).
Proof.
  induction e as [|c e IH]; simpl; constructor; [|exact IH].
  destruct (lower_char_related c) as [E|E]; [now left | right; now left].
Qed.

Section AvatarEdges.
Context `{Crypto}.

(** X16. An address gives the same avatar as its lowered form, and
    lowering twice is lowering once. *)
Theorem avatar_of_lowered_email (u v : User.t) (e : string) (size : Z) :
  User.email u = Some e ->
  User.email v = Some (py_lower e) ->
  avatar u size = avatar v size /\ py_lower (py_lower e) = py_lower e.
Proof.
  intros Hu Hv.
  pose proof (py_lower_same_up_to_case _ _ (same_up_to_case_lower e)) as Hl.
  split; [|now symmetry]. unfold avatar. now rewrite Hu, Hv, <- Hl.
Qed.
End AvatarEdges.

Lemma avatar_of_lowered_email_witness :
  User.email alice_shouting = Some "ALICE@example.COM"
  /\ User.email (new_user 5 "a" "alice@example.com")
     = Some (py_lower "ALICE@example.COM")
  /\ @avatar sample_crypto alice_shouting 80
     = @avatar sample_crypto (new_user 5 "a" "alice@example.com") 80.
Proof.
  split; [reflexivity|]. split; [reflexivity|].
  exact (proj1 (@avatar_of_lowered_email sample_crypto alice_shouting
                  (new_user 5 "a" "alice@example.com") "ALICE@example.COM" 80
                  eq_refl eq_refl)).
Defined.

(* ------------------------------------------------------------------ *)
(** ** Passwords: other inputs *)

Section PasswordEdges.
Context `{Crypto}.

(** X17. After [set_password(p)] has stored a hash, [check_password(q)]
    answers whether the digest of [q] under the recorded method and salt
    is the stored digest of [p]: an input with another digest is refused. *)
Theorem check_password_other_input
        (u u' : User.t) (salt p q digest actual dq aq : string) :
  str_count "$" salt = O ->
  hash_internal default_method salt p = Return (digest, actual) ->
  str_count "$" actual = O ->
  hash_internal actual salt q = Return (dq, aq) ->
  set_password u salt p = Return u' ->
  check_password u' q = Return (String.eqb dq digest)
  /\ (dq <> digest -> check_password u' q = Return false).
Proof.
  intros Hs Hgen Ha Hq Hset.
  assert (Hh : User.password_hash u' = Some (stored_hash actual salt digest)).
  { unfold set_password, generate_password_hash in Hset.
    rewrite Hgen in Hset. simpl in Hset. now inversion Hset. }
  assert (E : check_password u' q = Return (String.eqb dq digest)).
  { unfold check_password.
    now rewrite Hh, (check_password_hash_stored _ _ _ _ Ha Hs), Hq. }
  split; [exact E|]. intros Hne. rewrite E.
  now destruct (String.eqb_spec dq digest).
Qed.

End PasswordEdges.

Lemma check_password_other_input_witness :
  str_count "$" "s4lt" = O
  /\ @hash_internal sample_crypto (@default_method sample_crypto) "s4lt" "pw"
     = Return ("s4lt:pw", "pbkdf2:sha256:1")
  /\ str_count "$" "pbkdf2:sha256:1" = O
  /\ @hash_internal sample_crypto "pbkdf2:sha256:1" "s4lt" "guess"
     = Return ("s4lt:guess", "pbkdf2:sha256:1:1")
  /\ "s4lt:guess" <> "s4lt:pw"
  /\ forall u', @set_password sample_crypto bob "s4lt" "pw" = Return u' ->
                @check_password sample_crypto u' "guess" = Return false.
Proof.
  repeat (split; [reflexivity|]). split; [discriminate|].
  intros u' Hset.
  apply (proj2 (@check_password_other_input sample_crypto bob u' "s4lt" "pw"
                  "guess" "s4lt:pw" "pbkdf2:sha256:1" "s4lt:guess"
                  "pbkdf2:sha256:1:1" eq_refl eq_refl eq_refl eq_refl Hset)).
  discriminate.
Defined.

(* ------------------------------------------------------------------ *)
(** ** Configuration *)

Lemma get_in_range (seq : string) (k : nat) :
  (k < String.length seq)%nat ->
  exists c, String.get k seq = Some c /\ In c (list_ascii_of_string seq).
Proof.
  revert k. induction seq as [|d seq IH]; simpl; intros k Hk; [lia|].
  destruct k as [|k].
  - exists d. split; [reflexivity | now left].
  - destruct (IH k) as (c & Hc & Hin); [lia|].
    exists c. split; [exact Hc | now right].
Qed.

Lemma join_choices_in_range (seq : string) (draws : list nat) :
  Forall (fun k => (k < String.length seq)%nat) draws ->
  exists t,
    join_choices seq draws = Some t
    /\ String.length t = List.length draws
    /\ Forall (fun c => In c (list_ascii_of_string seq))
         (list_ascii_of_string t).
Proof.
  induction 1 as [|k draws Hk _ IH]; simpl.
  - exists EmptyString. repeat split. constructor.
  - destruct IH as (t & Ht & Hlen & Hall).
    destruct (get_in_range seq k Hk) as (c & Hc & Hin).
    exists (String c t). unfold choice. rewrite Hc, Ht. simpl.
    repeat split; [now rewrite Hlen | now constructor].
Qed.

Lemma alphabet_upper_or_digit (c : ascii) :
  In c (list_ascii_of_string (ascii_uppercase ++ digits)) -> upper_or_digit c.
Proof.
  simpl. intros Hin.
  repeat (destruct Hin as [<-|Hin]; [unfold upper_or_digit; vm_compute; lia|]).
  contradiction.
Qed.

(** X19. When every draw is an index into the 36-character alphabet,
    [rand_string] is a text of exactly thirty characters, each a capital
    ASCII letter or a digit. *)
Theorem rand_string_shape (draw : nat -> nat) :
  (forall i, (i < 30)%nat -> (draw i < 36)%nat) ->
  exists t,
    rand_string draw = Some t
    /\ String.length t = 30%nat
    /\ Forall upper_or_digit (list_ascii_of_string t).
Proof.
  intros Hdraw. unfold rand_string.
  destruct (join_choices_in_range (ascii_uppercase ++ digits)
              (map draw (seq 0 30))) as (t & Ht & Hlen & Hall).
  - apply Forall_forall. intros k Hk. apply in_map_iff in Hk as [i [<- Hi]].
    apply in_seq in Hi. change (String.length (ascii_uppercase ++ digits))
      with 36%nat. apply Hdraw. lia.
  - exists t. split; [exact Ht|]. split.
    + now rewrite Hlen, length_map, length_seq.
    + eapply Forall_impl; [|exact Hall]. apply alphabet_upper_or_digit.
Qed.

Lemma rand_string_shape_witness :
  (forall i, (i < 30)%nat -> (draw_in_turn i < 36)%nat)
  /\ exists t,
       rand_string draw_in_turn = Some t
       /\ String.length t = 30%nat
       /\ Forall upper_or_digit (list_ascii_of_string t).
Proof.
  assert (Hd : forall i, (i < 30)%nat -> (draw_in_turn i < 36)%nat)
    by (unfold draw_in_turn; intros i Hi; lia).
  split; [exact Hd|]. exact (rand_string_shape draw_in_turn Hd).
Defined.

(** X20. Loading the configuration with in-range draws always succeeds
    and never leaves [SECRET_KEY] empty: it is the environment's value when
    that is set and not empty, and the thirty-character [rand_string] when
    the variable is unset or set to the empty text. *)
Theorem secret_key_never_empty
        (environ : string -> option string) (draw : nat -> nat) :
  (forall i, (i < 30)%nat -> (draw i < 36)%nat) ->
  exists cfg,
    load_config environ draw = Some cfg
    /\ SECRET_KEY cfg <> EmptyString
    /\ (forall v, environ "SECRET_KEY" = Some v -> v <> EmptyString ->
                  SECRET_KEY cfg = v)
    /\ (environ "SECRET_KEY" = None \/ environ "SECRET_KEY" = Some EmptyString ->
        rand_string draw = Some (SECRET_KEY cfg)
        /\ String.length (SECRET_KEY cfg) = 30%nat)
    /\ SQLALCHEMY_DATABASE_URI cfg = environ "SQLALCHEMY_DATABASE_URI"
    /\ POSTS_PER_PAGE cfg = 2.
Proof.
  intros Hdraw.
  destruct (rand_string_shape draw Hdraw) as (t & Ht & Hlen & _).
  unfold load_config. rewrite Ht. simpl.
  exists (make_config environ t). split; [reflexivity|].
  assert (Hne : t <> EmptyString) by (intros ->; discriminate Hlen).
  unfold make_config. simpl. split; [|split; [|split; [|now split]]].
  - destruct (environ "SECRET_KEY") as [[|c v]|]; simpl;
      [exact Hne | discriminate | exact Hne].
  - intros v Hv Hv'. rewrite Hv. destruct v; [contradiction | reflexivity].
  - intros [E|E]; rewrite E; simpl; now split.
Qed.

Lemma secret_key_never_empty_witness :
  (forall i, (i < 30)%nat -> (draw_in_turn i < 36)%nat)
  /\ environ_empty_key "SECRET_KEY" = Some EmptyString
  /\ exists cfg,
       load_config environ_empty_key draw_in_turn = Some cfg
       /\ SECRET_KEY cfg = "ABCDEFGHIJKLMNOPQRSTUVWXYZ0123".
Proof.
  assert (Hd : forall i, (i < 30)%nat -> (draw_in_turn i < 36)%nat)
    by (unfold draw_in_turn; intros i Hi; lia).
  split; [exact Hd|]. split; [reflexivity|].
  destruct (secret_key_never_empty environ_empty_key draw_in_turn Hd)
    as (cfg & Hload & _).
  exists cfg. split; [exact Hload|].
  vm_compute in Hload. now inversion Hload.
Defined.

(* ------------------------------------------------------------------ *)
(** ** Printed forms *)

Lemma append_last_injective (a b : string) (c : ascii) :
  a ++ String c EmptyString = b ++ String c EmptyString -> a = b.
Proof.
  revert b. induction a as [|x a IH]; intros [|y b]; simpl; intros E.
  - reflexivity.
  - inversion E as [[Ex Er]]. destruct b; discriminate Er.
  - inversion E as [[Ex Er]]. destruct a; discriminate Er.
  - inversion E as [[Ex Er]]. f_equal. now apply IH.
Qed.

(** X21. Users print alike only when their usernames print alike: two
    users with different usernames have different [repr]s, while a user
    without a username prints as one named "None" does. The same holds of
    posts and their URLs. *)
Theorem repr_tells_names_apart (u v : User.t) (p q : Post.t) :
  (user_repr u = user_repr v
   <-> format_text (User.username u) = format_text (User.username v))
  /\ (forall n m, User.username u = Some n -> User.username v = Some m ->
                  n <> m -> user_repr u <> user_repr v)
  /\ (User.username u = None -> User.username v = Some "None" ->
      user_repr u = user_repr v)
  /\ (post_repr p = post_repr q
      <-> format_text (Post.url p) = format_text (Post.url q)).
Proof.
  assert (Hu : user_repr u = user_repr v
               <-> format_text (User.username u)
                   = format_text (User.username v)).
  { unfold user_repr. split; [|now intros ->].
    simpl. intros E. inversion E as [E']. now apply append_last_injective in E'. }
  split; [exact Hu|]. split; [|split].
  - intros n m Hn Hm Hne E. apply Hu in E. rewrite Hn, Hm in E. now apply Hne.
  - intros Hn Hm. apply Hu. now rewrite Hn, Hm.
  - unfold post_repr. split; [|now intros ->].
    simpl. intros E. inversion E as [E']. now apply append_last_injective in E'.
Qed.

Lemma repr_tells_names_apart_witness :
  User.username alice = Some "alice" /\ User.username bob = Some "bob"
  /\ "alice" <> "bob" /\ user_repr alice <> user_repr bob.
Proof.
  assert (Hne : "alice" <> "bob") by discriminate.
  split; [reflexivity|]. split; [reflexivity|]. split; [exact Hne|].
  exact (proj1 (proj2 (repr_tells_names_apart alice bob post_1 post_2))
           "alice" "bob" eq_refl eq_refl Hne).
Defined.

(* ------------------------------------------------------------------ *)
(** ** Avatar beyond Latin-1 *)

Ltac by_all_codes c := destruct c as [[] [] [] [] [] [] [] []]; reflexivity.

Lemma lower_code_narrow (c : ascii) :
  lower_code (N_of_ascii c) = N_of_ascii (lower_char c).
Proof. by_all_codes c. Qed.

Lemma narrow_is_not_sigma (c : ascii) : (N_of_ascii c =? 0x3a3)%N = false.
Proof. by_all_codes c. Qed.

Lemma utf8_code_narrow (c : ascii) : utf8_code (N_of_ascii c) = utf8_char c.
Proof. by_all_codes c. Qed.

(** On a text of code points below 256 the wide definitions are the
    narrow ones. *)
Lemma lower_from_narrow (before : list N) (t : string) :
  lower_from before (code_points t) = code_points (py_lower t).
Proof.
  revert before. induction t as [|c t IH]; intros before; [reflexivity|].
  unfold code_points in *. cbn [list_ascii_of_string map lower_from py_lower].
  now rewrite narrow_is_not_sigma, lower_code_narrow, IH.
Qed.

Lemma encode_utf8_narrow (t : string) :
  encode_utf8_wide (code_points t) = encode_utf8 t.
Proof.
  unfold encode_utf8_wide, code_points.
  induction t as [|c t IH]; [reflexivity|].
  cbn [list_ascii_of_string map flat_map encode_utf8].
  now rewrite utf8_code_narrow, IH.
Qed.

Lemma avatar_wide_narrow `{Crypto} (u : User.t) (size : Z) :
  avatar_wide (option_map code_points (User.email u)) size = avatar u size.
Proof.
  unfold avatar_wide, avatar, lower_wide.
  destruct (User.email u) as [e|]; [|reflexivity]. simpl.
  now rewrite lower_from_narrow, encode_utf8_narrow.
Qed.

Lemma same_up_to_case_narrow (s t : string) :
  same_up_to_case s t -> same_up_to_case_wide (code_points s) (code_points t).
Proof.
  assert (Hpair : forall c d, small_of_capital c d ->
                              small_of_capital_wide (N_of_ascii c) (N_of_ascii d)).
  { intros c d [Hc Hd]. unfold code, nat_of_ascii in *.
    unfold small_of_capital_wide. lia. }
  unfold same_up_to_case_wide, code_points.
  induction 1 as [|c d s t Hcd _ IH]; simpl; constructor; [|exact IH].
  destruct Hcd as [->|[Hcd|Hdc]]; [now left | right; left | right; right];
    now apply Hpair.
Qed.

